(** * Omnom: the structural delta engine of Iridium

    A shallow embedding of [lib/utils/Omnom.js] (the compiled differ used by
    [ModelHelpers.diff]) and the properties its specification states.

    The engine reads two JavaScript values and fills an accumulator with
    MongoDB update operators.  JavaScript objects are references, the
    engine compares them by reference ([==]) and, in one place, calls
    [Array.prototype.push] on an array it found inside its accumulator; the
    embedding therefore keeps an explicit object store.  Recursion over the
    store is bounded by a fuel argument.

    Numbers stored in documents are modelled by [Z] (the integer fragment of
    JavaScript numbers; [NaN], which differs from itself, is not a document
    value here).  Similarity scores, the only place where the
    engine divides, are modelled by exact rationals extended with the
    non-finite results of a division by zero; binary64 rounding is outside
    the model.

    Beside the engine the file embeds its caller [ModelHelpers.diff], the
    collection helpers [first] and [select] of [Instance], and the
    constructor and the [url] getter of [Core].  The last part, "Further
    properties", holds invariants of every run, the locality of a visit,
    a bound on the fuel that suffices, and the behaviour of the single
    strategies of [onArray]. *)

From Stdlib Require Import ZArith QArith Lqa Ascii String List Lia Bool.
From stdpp Require Import base option list gmap strings pretty.

Local Open Scope Z_scope.
Local Open Scope string_scope.
Local Open Scope list_scope.

(** ** Values and the object store *)

Abbreviation loc := positive (only parsing).

(** A JavaScript value: a primitive or a reference to an object. *)
Inductive value : Type :=
| VUndefined
| VNull
| VNumber (n : Z)
| VString (s : string)
| VBoolean (b : bool)
| VObject (l : loc).

(** The objects a document is made of: arrays, plain objects (own enumerable
    properties in enumeration order) and [MongoDB.ObjectID] instances.
    Properties inherited from [Object.prototype] are outside the model. *)
Inductive object : Type :=
| Array (elems : list value)
| Plain (fields : list (string * value))
| ObjectID (id : string).

#[global] Instance value_eq_dec : EqDecision value.
Proof. solve_decision. Defined.

#[global] Instance object_eq_dec : EqDecision object.
Proof. solve_decision. Defined.

Abbreviation store := (gmap positive object).

(** [o[key]] on a plain object: the own property or [undefined]. *)
Fixpoint getField (fields : list (string * value)) (key : string) : value :=
  match fields with
  | [] => VUndefined
  | (k, v) :: rest => if String.eqb k key then v else getField rest key
  end.

(** [Object.keys(o)] *)
Definition keys (fields : list (string * value)) : list string :=
  map fst fields.

(** [a[i]] on an array: the element or [undefined]. *)
Definition getIndex (elems : list value) (i : nat) : value :=
  nth i elems VUndefined.

(** [_.isPlainObject(v)], returning the properties when it holds. *)
Definition plainFields (h : store) (v : value) : option (list (string * value)) :=
  match v with
  | VObject l => match h !! l with Some (Plain fs) => Some fs | _ => None end
  | _ => None
  end.

(** [Array.isArray(v)], returning the elements when it holds. *)
Definition arrayElems (h : store) (v : value) : option (list value) :=
  match v with
  | VObject l => match h !! l with Some (Array es) => Some es | _ => None end
  | _ => None
  end.

(** [v instanceof MongoDB.ObjectID], returning the identifier when it holds. *)
Definition objectId (h : store) (v : value) : option string :=
  match v with
  | VObject l => match h !! l with Some (ObjectID i) => Some i | _ => None end
  | _ => None
  end.

Definition isArray (h : store) (v : value) : bool :=
  bool_decide (is_Some (arrayElems h v)).

(** ToBoolean *)
Definition truthy (v : value) : bool :=
  match v with
  | VUndefined | VNull => false
  | VNumber n => negb (Z.eqb n 0)
  | VString s => negb (String.eqb s "")
  | VBoolean b => b
  | VObject _ => true
  end.

(** [a === b] *)
Definition strictEq (a b : value) : bool := bool_decide (a = b).

(** ** Conversions of the host language

    [a == b] converts operands of different types with ToNumber and
    ToPrimitive.  Both belong to the JavaScript runtime, not to the
    repository; they are taken as an interface.  [StringToNumber s] is the
    integer denoted by [s], if any; [ToPrimitive h l] is the string an
    object converts to. *)
Class Runtime : Type := {
  StringToNumber : string -> option Z;
  ToPrimitive : store -> loc -> string
}.

Section Equality.
Context `{Runtime}.

Definition numberEqString (n : Z) (s : string) : bool :=
  match StringToNumber s with
  | Some m => Z.eqb n m
  | None => false
  end.

(** [n == y] for a number [n]. *)
Definition numberLooseEq (h : store) (n : Z) (y : value) : bool :=
  match y with
  | VNumber m => Z.eqb n m
  | VString s => numberEqString n s
  | VBoolean b => Z.eqb n (if b then 1 else 0)
  | VObject l => numberEqString n (ToPrimitive h l)
  | VUndefined | VNull => false
  end.

(** [x == y], the abstract equality comparison of ECMAScript 5, 11.9.3. *)
Definition looseEq (h : store) (x y : value) : bool :=
  match x, y with
  | VUndefined, VUndefined | VUndefined, VNull
  | VNull, VUndefined | VNull, VNull => true
  | VNumber a, _ => numberLooseEq h a y
  | _, VNumber b => numberLooseEq h b x
  | VBoolean a, _ => numberLooseEq h (if a then 1 else 0) y
  | _, VBoolean b => numberLooseEq h (if b then 1 else 0) x
  | VString a, VString b => String.eqb a b
  | VString a, VObject l => String.eqb a (ToPrimitive h l)
  | VObject l, VString b => String.eqb (ToPrimitive h l) b
  | VObject a, VObject b => bool_decide (a = b)
  | _, _ => false
  end.

End Equality.

(** Evaluate [f] on the elements in order, as [Array.prototype.every] or a
    loop that leaves at the first failure does. *)
Fixpoint everyM {A : Type} (f : A -> option bool) (l : list A) : option bool :=
  match l with
  | [] => Some true
  | x :: rest =>
    match f x with
    | Some true => everyM f rest
    | other => other
    end
  end.

(** [_.isEqual(a, b)] of lodash: identical values are equal; arrays are
    compared element by element, plain objects by their own properties
    whatever their order, ObjectIDs by their identifier.  [None]: the fuel
    ran out. *)
Fixpoint isEqual (h : store) (fuel : nat) (a b : value) : option bool :=
  if strictEq a b then Some true
  else
    match a, b with
    | VObject la, VObject lb =>
      match h !! la, h !! lb with
      | Some (Array xs), Some (Array ys) =>
        match fuel with
        | O => None
        | S fuel =>
          if Nat.eqb (length xs) (length ys)
          then everyM (fun i => isEqual h fuel (getIndex xs i) (getIndex ys i))
                      (seq 0 (length xs))
          else Some false
        end
      | Some (Plain f1), Some (Plain f2) =>
        match fuel with
        | O => None
        | S fuel =>
          if Nat.eqb (length f1) (length f2)
          then everyM (fun k => if bool_decide (k ∈ keys f2)
                                then isEqual h fuel (getField f1 k) (getField f2 k)
                                else Some false)
                      (keys f1)
          else Some false
        end
      | Some (ObjectID i), Some (ObjectID j) => Some (String.eqb i j)
      | _, _ => Some false
      end
    | _, _ => Some false
    end.

(** ** Similarity scores *)

(** The results a JavaScript division of two array lengths can have. *)
Inductive number : Type :=
| NaN
| Infinite (negative : bool)
| Finite (q : Q).

(** [a / b] for two lengths. *)
Definition divide (a b : nat) : number :=
  match b, a with
  | O, O => NaN
  | O, S _ => Infinite false
  | S _, _ => Finite (Z.of_nat a # Pos.of_nat b)
  end.

(** [x - y] *)
Definition minus (x y : number) : number :=
  match x, y with
  | NaN, _ | _, NaN => NaN
  | Infinite a, Infinite b => if Bool.eqb a b then NaN else Infinite a
  | Infinite a, Finite _ => Infinite a
  | Finite _, Infinite b => Infinite (negb b)
  | Finite p, Finite q => Finite (p - q)
  end.

(** [x < 1] *)
Definition belowOne (x : number) : bool :=
  match x with
  | NaN => false
  | Infinite negative => negative
  | Finite q => negb (Qle_bool 1 q)
  end.

(** [x === 0] *)
Definition isZero (x : number) : bool :=
  match x with
  | Finite q => Qeq_bool q 0
  | _ => false
  end.

(** ToBoolean of a number: [NaN] and zero are falsy. *)
Definition nonZero (x : number) : bool :=
  match x with
  | NaN => false
  | Infinite _ => true
  | Finite q => negb (Qeq_bool q 0)
  end.

Definition one : number := Finite 1.
Definition zero : number := Finite 0.

(** The loop counting the common keys whose values score below one. *)
Fixpoint countChanges (score : string -> option number) (commonKeys : list string)
    (requiredChanges : nat) : option nat :=
  match commonKeys with
  | [] => Some requiredChanges
  | k :: rest =>
    match score k with
    | Some s => countChanges score rest
                  (if belowOne s then S requiredChanges else requiredChanges)
    | None => None
    end
  end.

(** The keys of [f1] that [f2] has too, in the order of [f1]. *)
Definition common (f1 f2 : list (string * value)) : list string :=
  filter (fun k => k ∈ keys f2) (keys f1).

Section Similarity.
Context `{Runtime}.

(** [Omnom.prototype.almostEqual].  [None]: the fuel ran out. *)
Fixpoint almostEqual (h : store) (fuel : nat) (o1 o2 : value) : option number :=
  match plainFields h o1, plainFields h o2 with
  | Some f1, Some f2 =>
    match fuel with
    | O => None
    | S fuel =>
      let commonKeys := common f1 f2 in
      let totalKeys := (length (keys f1) + length (keys f2) - length commonKeys)%nat in
      let keysDifference := (totalKeys - length commonKeys)%nat in
      match countChanges
              (fun k => almostEqual h fuel (getField f1 k) (getField f2 k))
              commonKeys O with
      | Some requiredChanges =>
        Some (minus (minus one (divide keysDifference totalKeys))
                    (divide requiredChanges (length commonKeys)))
      | None => None
      end
    end
  | _, _ => Some (if looseEq h o1 o2 then one else zero)
  end.

End Similarity.

(** ** The accumulator *)

(** An entry of [$push]: a value of the document, or the wrapper
    [{ $each: [...] }] the builder allocates. *)
Inductive pushed : Type :=
| Single (v : value)
| Each (vs : list value).

(** [this._changes]: each operator is absent or maps paths to operands. *)
Record Changes : Type := {
  c_set : option (gmap string value);
  c_unset : option (gmap string Z);
  c_inc : option (gmap string Z);
  c_push : option (gmap string pushed);
  c_pull : option (gmap string value);
  c_pullAll : option (gmap string (list value))
}.

Definition noChanges : Changes :=
  {| c_set := None; c_unset := None; c_inc := None;
     c_push := None; c_pull := None; c_pullAll := None |}.

Definition withSet (m : option (gmap string value)) (c : Changes) : Changes :=
  {| c_set := m; c_unset := c_unset c; c_inc := c_inc c;
     c_push := c_push c; c_pull := c_pull c; c_pullAll := c_pullAll c |}.

Definition withUnset (m : option (gmap string Z)) (c : Changes) : Changes :=
  {| c_set := c_set c; c_unset := m; c_inc := c_inc c;
     c_push := c_push c; c_pull := c_pull c; c_pullAll := c_pullAll c |}.

Definition withInc (m : option (gmap string Z)) (c : Changes) : Changes :=
  {| c_set := c_set c; c_unset := c_unset c; c_inc := m;
     c_push := c_push c; c_pull := c_pull c; c_pullAll := c_pullAll c |}.

Definition withPush (m : option (gmap string pushed)) (c : Changes) : Changes :=
  {| c_set := c_set c; c_unset := c_unset c; c_inc := c_inc c;
     c_push := m; c_pull := c_pull c; c_pullAll := c_pullAll c |}.

Definition withPull (m : option (gmap string value)) (c : Changes) : Changes :=
  {| c_set := c_set c; c_unset := c_unset c; c_inc := c_inc c;
     c_push := c_push c; c_pull := m; c_pullAll := c_pullAll c |}.

Definition withPullAll (m : option (gmap string (list value))) (c : Changes) : Changes :=
  {| c_set := c_set c; c_unset := c_unset c; c_inc := c_inc c;
     c_push := c_push c; c_pull := c_pull c; c_pullAll := m |}.

(** A path is [undefined] at the root; used as a property name it reads
    ["undefined"]. *)
Definition propertyKey (path : option string) : string :=
  default "undefined" path.

(** [validArguments.join('.')] *)
Fixpoint join (parts : list string) : string :=
  match parts with
  | [] => ""
  | [part] => part
  | part :: rest => part +:+ "." +:+ join rest
  end.

(** [Omnom.prototype.resolve(changePath, key)]: the truthy arguments
    joined by a dot. *)
Definition resolve (changePath : option string) (key : string) : string :=
  join (filter (fun arg => arg ≠ "") (option_list changePath ++ [key])).

Module Omnom.

(** [Omnom.prototype.set] *)
Definition set (path : option string) (v : value) (c : Changes) : Changes :=
  withSet (Some (<[propertyKey path := v]> (default ∅ (c_set c)))) c.

(** [Omnom.prototype.unset] *)
Definition unset (path : option string) (c : Changes) : Changes :=
  withUnset (Some (<[propertyKey path := 1]> (default ∅ (c_unset c)))) c.

(** [Omnom.prototype.inc] *)
Definition inc (path : option string) (delta : Z) (c : Changes) : Changes :=
  withInc (Some (<[propertyKey path := delta]> (default ∅ (c_inc c)))) c.

(** [Omnom.prototype.pullAll] *)
Definition pullAll (path : option string) (values : list value) (c : Changes) : Changes :=
  withPullAll (Some (<[propertyKey path := values]> (default ∅ (c_pullAll c)))) c.

(** [Omnom.prototype.pull] *)
Definition pull (path : option string) (v : value) (c : Changes) : Changes :=
  let key := propertyKey path in
  let pulls := default ∅ (c_pull c) in
  let c := withPull (Some pulls) c in
  match c_pullAll c ≫= (.!! key) with
  | Some values =>
    withPullAll (Some (<[key := values ++ [v]]> (default ∅ (c_pullAll c)))) c
  | None =>
    match pulls !! key with
    | Some previous =>
      if truthy previous then
        let c := pullAll path [previous; v] c in
        let pulls := delete key pulls in
        withPull (if bool_decide (pulls = ∅) then None else Some pulls) c
      else withPull (Some (<[key := v]> pulls)) c
    | None => withPull (Some (<[key := v]> pulls)) c
    end
  end.

End Omnom.

(** ** Running the engine *)

(** The object store together with the accumulator of one [Omnom]. *)
Record state : Type := {
  heap : store;
  changes : Changes
}.

(** What a call does: it returns, it throws a [TypeError], or the fuel of the
    embedding ran out. *)
Inductive outcome (A : Type) : Type :=
| Done (a : A)
| Thrown
| Exhausted.

Arguments Done {A} a.
Arguments Thrown {A}.
Arguments Exhausted {A}.

#[global] Instance outcome_ret : MRet outcome := @Done.

#[global] Instance outcome_bind : MBind outcome := fun A B f m =>
  match m with
  | Done a => f a
  | Thrown => Thrown
  | Exhausted => Exhausted
  end.

(** A builder call that only touches the accumulator. *)
Definition record (f : Changes -> Changes) (σ : state) : outcome state :=
  Done {| heap := heap σ; changes := f (changes σ) |}.

(** A read that needs fuel. *)
Definition need {A : Type} (r : option A) : outcome A :=
  match r with
  | Some a => Done a
  | None => Exhausted
  end.

(** [for (x of l) body(x)] over a list fixed before the loop. *)
Fixpoint forEach {A : Type} (body : A -> state -> outcome state) (l : list A)
    (σ : state) : outcome state :=
  match l with
  | [] => Done σ
  | x :: rest => σ' ← body x σ; forEach body rest σ'
  end.

(** The elements of an array as the store has them now. *)
Definition elements (h : store) (v : value) : list value :=
  default [] (arrayElems h v).

(** [v[name]] for a value of a document. *)
Definition getProperty (h : store) (v : value) (name : string) : value :=
  match plainFields h v with
  | Some fs => getField fs name
  | None => VUndefined
  end.

(** [Omnom.prototype.push].  The entry found under [path] may be a value of
    the document; when that value has a truthy [$each], [push] is called on
    it. *)
Definition push (path : option string) (v : value) (σ : state) : outcome state :=
  let key := propertyKey path in
  let pushes := default ∅ (c_push (changes σ)) in
  let store_entry e :=
    Done {| heap := heap σ;
            changes := withPush (Some (<[key := e]> pushes)) (changes σ) |} in
  match pushes !! key with
  | Some (Each vs) => store_entry (Each (vs ++ [v]))
  | Some (Single previous) =>
    if truthy previous then
      let each := getProperty (heap σ) previous "$each" in
      if truthy each then
        match each with
        | VObject l =>
          match heap σ !! l with
          | Some (Array es) =>
            Done {| heap := <[l := Array (es ++ [v])]> (heap σ);
                    changes := withPush (Some pushes) (changes σ) |}
          | _ => Thrown
          end
        | _ => Thrown
        end
      else store_entry (Each [previous; v])
    else store_entry (Single v)
  | None => store_entry (Single v)
  end.

(** [for (i = ...; i < modified.length; i++) this.push(changePath, modified[i])] *)
Fixpoint pushLoop (fuel : nat) (modified : value) (changePath : option string)
    (i : nat) (σ : state) : outcome state :=
  match fuel with
  | O => Exhausted
  | S fuel =>
    let m := elements (heap σ) modified in
    if (i <? length m)%nat
    then σ' ← push changePath (getIndex m i) σ;
         pushLoop fuel modified changePath (S i) σ'
    else Done σ
  end.

(** [v === undefined || v === null] *)
Definition nullish (v : value) : bool :=
  match v with
  | VUndefined | VNull => true
  | _ => false
  end.

(** [typeof original == 'number' && typeof modified == 'number' &&
    original !== modified] *)
Definition changedNumber (original modified : value) : bool :=
  match original, modified with
  | VNumber a, VNumber b => negb (Z.eqb a b)
  | _, _ => false
  end.

(** [modified - original] for two numbers. *)
Definition difference (modified original : value) : Z :=
  match modified, original with
  | VNumber b, VNumber a => b - a
  | _, _ => 0
  end.

(** [this.options] *)
Record Options : Type := { atomicNumbers : bool }.

Section Engine.
Context `{Runtime}.
Variable options : Options.

(** The first loops of the removal strategy: walk [original] against
    [modified] from index [j], collecting what has no counterpart. *)
Fixpoint collectPulls (h : store) (fuel : nat) (original modified : list value)
    (j : nat) (pulls : list value) : option (nat * list value) :=
  match original with
  | [] => Some (j, pulls)
  | o :: rest =>
    if (j <? length modified)%nat then
      match almostEqual h fuel o (getIndex modified j) with
      | Some s =>
        if nonZero s
        then collectPulls h fuel rest modified (S j) pulls
        else collectPulls h fuel rest modified j (pulls ++ [o])
      | None => None
      end
    else Some (j, pulls ++ original)
  end.

(** The loop deciding [canPush]: it stops at the first index scoring below
    one. *)
Fixpoint canPush (h : store) (fuel : nat) (original modified : list value)
    (i : nat) : option bool :=
  match original with
  | [] => Some true
  | o :: rest =>
    match almostEqual h fuel o (getIndex modified i) with
    | Some s => if belowOne s then Some false else canPush h fuel rest modified (S i)
    | None => None
    end
  end.

(** The loop filling [sets] and [partials]. *)
Fixpoint classify (h : store) (fuel : nat) (original modified : list value)
    (indices : list nat) (sets partials : list nat)
    : option (list nat * list nat) :=
  match indices with
  | [] => Some (sets, partials)
  | i :: rest =>
    match almostEqual h fuel (getIndex original i) (getIndex modified i) with
    | Some equality =>
      if isZero equality
      then classify h fuel original modified rest (sets ++ [i]) partials
      else if belowOne equality
      then classify h fuel original modified rest sets (partials ++ [i])
      else classify h fuel original modified rest sets partials
    | None => None
    end
  end.

Definition indexName (i : nat) : string := pretty i.

(** [Omnom.prototype.onObject] and [Omnom.prototype.onArray].  The rules
    of [onObject] are tried in the order of the source.  [_.each] over a
    plain object visits its own keys in order (lodash would take an object
    with a numeric [length] for a sequence; such documents are outside the
    model).  Rule five calls [_.isEqual] only when the two values are not
    both arrays, both ObjectIDs or both plain objects. *)
Fixpoint onObject (fuel : nat) (original modified : value)
    (changePath : option string) (σ : state) : outcome state :=
  match fuel with
  | O => Exhausted
  | S fuel =>
    let h := heap σ in
    if nullish original then
      if strictEq original modified then Done σ
      else record (Omnom.set changePath modified) σ
    else if changedNumber original modified then
      if atomicNumbers options
      then record (Omnom.inc changePath (difference modified original)) σ
      else record (Omnom.set changePath modified) σ
    else if isArray h original && isArray h modified then
      onArray fuel original modified changePath σ
    else
      match objectId h original, objectId h modified with
      | Some a, Some b =>
        if String.eqb a b then Done σ
        else record (Omnom.set changePath modified) σ
      | _, _ =>
        match plainFields h original, plainFields h modified with
        | Some fo, Some fm =>
          σ ← forEach (fun key σ =>
                 let value := getField fm key in
                 let path := Some (resolve changePath key) in
                 if isArray (heap σ) value && isArray (heap σ) (getField fo key)
                 then onArray fuel (getField fo key) value path σ
                 else onObject fuel (getField fo key) value path σ)
               (keys fm) σ;
          forEach (fun key σ =>
              if nullish (getField fm key)
              then record (Omnom.unset (Some (resolve changePath key))) σ
              else Done σ)
            (keys fo) σ
        | _, _ =>
          equal ← need (isEqual h fuel original modified);
          if equal : bool then Done σ
          else record (Omnom.set changePath modified) σ
        end
      end
  end

with onArray (fuel : nat) (original modified : value)
    (changePath : option string) (σ : state) : outcome state :=
  match fuel with
  | O => Exhausted
  | S fuel =>
    let h := heap σ in
    let o := elements h original in
    let m := elements h modified in
    if (length m <? length o)%nat then
      '(j, pulls) ← need (collectPulls h fuel o m O []);
      if Nat.eqb j (length m) then
        match pulls with
        | [pull] => record (Omnom.pull changePath pull) σ
        | _ => forEach (fun pull => record (Omnom.pull changePath pull)) pulls σ
        end
      else record (Omnom.set changePath modified) σ
    else
      appendOnly ← (if (length o <? length m)%nat
                    then need (canPush h fuel o m O)
                    else Done false);
      if appendOnly : bool
      then pushLoop fuel modified changePath (length o) σ
      else
        '(sets, partials) ← need (classify h fuel o m (seq 0 (length m)) [] []);
        if (length m <? 2 * length sets)%nat
        then record (Omnom.set changePath modified) σ
        else
          σ ← forEach (fun i =>
                 record (Omnom.set (Some (resolve changePath (indexName i)))
                                   (getIndex m i)))
               sets σ;
          forEach (fun i σ =>
              onObject fuel
                (getIndex (elements (heap σ) original) i)
                (getIndex (elements (heap σ) modified) i)
                (Some (resolve changePath (indexName i))) σ)
            partials σ
  end.

(** [Omnom.diff(original, modified, options)]: a new accumulator, one call
    of [onObject] at the root, and the accumulator is returned.  The store
    is returned with it, since the store is what the caller sees of its
    two documents afterwards. *)
Definition diff (fuel : nat) (h : store) (original modified : value)
    : outcome state :=
  onObject fuel original modified None {| heap := h; changes := noChanges |}.

End Engine.

(** ** A runtime to run the engine

    [StringToNumber] reads decimal integer literals, [ToPrimitive] prints a
    plain object as ["[object Object]"], an ObjectID as its identifier and an
    array as its primitive elements separated by commas.  The documents
    evaluated below never reach a conversion; every statement that
    mentions a [Runtime] variable holds for all of them. *)

Definition digitValue (c : Ascii.ascii) : option Z :=
  let n := Z.of_nat (Ascii.nat_of_ascii c) in
  if Z.leb 48 n && Z.leb n 57 then Some (n - 48) else None.

Fixpoint readDigits (s : string) (acc : Z) : option Z :=
  match s with
  | EmptyString => Some acc
  | String c rest =>
    match digitValue c with
    | Some d => readDigits rest (10 * acc + d)
    | None => None
    end
  end.

Definition readInteger (s : string) : option Z :=
  match s with
  | EmptyString => Some 0
  | String "-"%char (String _ _ as rest) => Z.opp <$> readDigits rest 0
  | String "+"%char (String _ _ as rest) => readDigits rest 0
  | _ => readDigits s 0
  end.

Definition printPrimitive (v : value) : string :=
  match v with
  | VUndefined | VNull => ""
  | VNumber n => pretty n
  | VString s => s
  | VBoolean b => if b then "true" else "false"
  | VObject _ => "[object Object]"
  end.

Fixpoint commas (parts : list string) : string :=
  match parts with
  | [] => ""
  | [part] => part
  | part :: rest => part +:+ "," +:+ commas rest
  end.

Definition printObject (h : store) (l : loc) : string :=
  match h !! l with
  | Some (Array es) => commas (map printPrimitive es)
  | Some (ObjectID i) => i
  | _ => "[object Object]"
  end.

#[global] Instance host : Runtime :=
  {| StringToNumber := readInteger; ToPrimitive := printObject |}.

(** ** The caller of the engine *)

Module ModelHelpers.

(** [ModelHelpers.prototype.diff]: [new Omnom()] takes the options [{}],
    whose [atomicNumbers] is [undefined], hence falsy; the accumulator of
    that [Omnom] is returned. *)
Definition diff `{Runtime} (fuel : nat) (h : store) (original modified : value)
    : outcome state :=
  diff {| atomicNumbers := false |} fuel h original modified.

End ModelHelpers.

(** ** The collection helpers of an instance *)

Module Instance.

(** A collection is an array or an object used as a map; the callback of
    [_.each] is given each value with its index or its property name. *)
Inductive collection : Type :=
| Elements (items : list value)
| Properties (fields : list (string * value)).

Inductive position : Type :=
| Index (i : nat)
| Name (key : string).

(** [Array.isArray(collection)] *)
Definition isArray (c : collection) : bool :=
  match c with
  | Elements _ => true
  | Properties _ => false
  end.

(** What [_.each(collection, callback)] visits, in order. *)
Definition visits (c : collection) : list (value * position) :=
  match c with
  | Elements items => imap (fun i x => (x, Index i)) items
  | Properties fields => map (fun kv => (kv.2, Name kv.1)) fields
  end.

(** [results[key] = value] on the own properties of an object. *)
Fixpoint assign (fields : list (string * value)) (key : string) (v : value)
    : list (string * value) :=
  match fields with
  | [] => [(key, v)]
  | (k, x) :: rest =>
    if String.eqb k key then (k, v) :: rest else (k, x) :: assign rest key v
  end.

Section Predicate.

(** Whether [predicate.call(this, value, key)] is truthy; the predicate is
    taken to have no effect of its own. *)
Variable predicate : value -> position -> bool.

(** The predicate on a visit. *)
Definition accepted (visit : value * position) : bool :=
  predicate visit.1 visit.2.

(** The loop of [first]: the callback returns [false], which ends
    [_.each], at the first value the predicate accepts. *)
Fixpoint search (remaining : list (value * position)) (result : value) : value :=
  match remaining with
  | [] => result
  | (x, k) :: rest => if predicate x k then x else search rest result
  end.

(** [Instance.prototype.first] *)
Definition first (c : collection) : value := search (visits c) VNull.

(** The callback of [select]: the accepted value is pushed to the array of
    results, or assigned to the object of results under its name.
    [results] is an array exactly when the collection is. *)
Definition keep (results : collection) (visit : value * position) : collection :=
  if predicate visit.1 visit.2 then
    match results, visit.2 with
    | Elements items, _ => Elements (items ++ [visit.1])
    | Properties fields, Name key => Properties (assign fields key visit.1)
    | Properties fields, Index i => Properties (assign fields (pretty i) visit.1)
    end
  else results.

(** [Instance.prototype.select] *)
Definition select (c : collection) : collection :=
  foldl keep (if isArray c then Elements [] else Properties []) (visits c).

End Predicate.

(** The values of a collection, in order. *)
Definition values (c : collection) : list value :=
  match c with
  | Elements items => items
  | Properties fields => map snd fields
  end.

(** The property names of an object are pairwise different; nothing is
    asked of an array. *)
Definition distinct (c : collection) : Prop :=
  match c with
  | Elements _ => True
  | Properties fields => NoDup (keys fields)
  end.

End Instance.

(** ** The connection URL of a core *)

Module Core.

(** An entry of [hosts] and the configuration, with the types the
    [Configuration] interface declares; an absent property is [None]. *)
Record Host : Type := {
  address : string;
  hostPort : option N
}.

Record Config : Type := {
  host : option string;
  port : option N;
  hosts : option (list Host);
  database : option string;
  username : option string;
  password : option string
}.

(** An argument of the constructor by its [typeof]: a string, an object
    (a configuration, or [null]) or anything else. *)
Inductive argument : Type :=
| Text (s : string)
| Settings (c : option Config)
| Other.

(** [this._url] and [this._config]; [None] is [null]. *)
Record core : Type := {
  _url : option string;
  _config : option Config
}.

(** ToBoolean of a string that may be absent, and of a number that may be
    absent. *)
Definition given (s : option string) : bool :=
  match s with
  | Some (String _ _) => true
  | _ => false
  end.

Definition numbered (n : option N) : bool :=
  match n with
  | Some n => negb (N.eqb n 0)
  | None => false
  end.

(** The loop of the constructor over its arguments. *)
Definition scan (found : option string * option Config) (arg : argument)
    : option string * option Config :=
  match arg with
  | Text s => (Some s, found.2)
  | Settings c => (found.1, c)
  | Other => found
  end.

(** The constructor; [None]: it throws its [Error]. *)
Definition construct (args : list argument) : option core :=
  let found := foldl scan (None, None) args in
  if negb (given found.1) && negb (bool_decide (is_Some found.2)) then None
  else Some {| _url := found.1; _config := found.2 |}.

(** [_.uniq]: the first occurrence of each value, in order. *)
Fixpoint uniq (seen : list string) (l : list string) : list string :=
  match l with
  | [] => []
  | x :: rest =>
    if bool_decide (x ∈ seen) then uniq seen rest else x :: uniq (x :: seen) rest
  end.

(** [name + ':' + port], or the name alone when the port is falsy. *)
Definition endpoint (name : string) (port : option N) : string :=
  if numbered port then name +:+ ":" +:+ pretty (default 0%N port) else name.

(** The user name, with the password if there is one, before the [@]. *)
Definition credentials (c : Config) : string :=
  if given (username c)
  then default "" (username c)
       +:+ (if given (password c) then ":" +:+ default "" (password c) else "")
       +:+ "@"
  else "".

(** The array [hosts] of the getter. *)
Definition endpoints (c : Config) : list string :=
  (if given (host c) then [endpoint (default "" (host c)) (port c)] else [])
  ++ map (fun h => endpoint (address h) (hostPort h)) (default [] (hosts c)).

(** The getter [url]; [None]: reading a property of [null] throws. *)
Definition url (this : core) : option string :=
  if given (_url this) then _url this
  else
    c ← _config this;
    Some ("mongodb://" +:+ credentials c
          +:+ (match endpoints c with
               | [] => "localhost"
               | found => commas (uniq [] found)
               end)
          +:+ "/" +:+ default "undefined" (database c)).

End Core.

(** * The vocabulary of the properties *)

(** ** Well-formed documents *)

(** [fits h d v]: what [v] reaches in [h] is a tree of depth at most [d];
    a value with such a [d] is acyclic. *)
Fixpoint fits (h : store) (d : nat) (v : value) : Prop :=
  match v with
  | VObject l =>
    match d with
    | O => False
    | S d =>
      match h !! l with
      | Some (Plain fs) => Forall (fun kv => fits h d kv.2) fs
      | Some (Array es) => Forall (fits h d) es
      | _ => True
      end
    end
  | _ => True
  end.


(** No plain object of the store has a truthy [$each] property. *)
Definition noEach (h : store) : Prop :=
  forall l fs, h !! l = Some (Plain fs) -> truthy (getField fs "$each") = false.

(** ** Scores and the accumulator *)

(** The score lies in [[0, 1]]. *)
Definition inUnitInterval (s : number) : Prop :=
  match s with
  | Finite q => (0 <= q <= 1)%Q
  | _ => False
  end.

(** No operator that is present has an empty mapping. *)
Definition noEmptyOperator (c : Changes) : Prop :=
  c_set c <> Some ∅ /\ c_unset c <> Some ∅ /\ c_inc c <> Some ∅ /\
  c_push c <> Some ∅ /\ c_pull c <> Some ∅ /\ c_pullAll c <> Some ∅.



(** ** Paths and the provenance of entries *)

(** The path the engine reaches by following the keys [ks] from
    [changePath]. *)
Definition pathFrom (changePath : option string) (ks : list string) : option string :=
  foldl (fun p k => Some (resolve p k)) changePath ks.


(** [s] starts with [p]. *)
Definition startsWith (p s : string) : Prop := exists rest, s = p +:+ rest.




(** Every property name in the store is non-empty. *)
Definition simpleKeys (h : store) : Prop :=
  forall l fs, h !! l = Some (Plain fs) -> Forall (fun k => k <> "") (keys fs).


(** From [σ] to [τ] the store kept its property names and [$unset] is the
    same. *)
Definition sameUnsets (σ τ : state) : Prop :=
  simpleKeys (heap τ) /\ c_unset (changes τ) = c_unset (changes σ).

(** ** Documents as trees and the update operators

    The specification states the round trip on trees: a document is a
    scalar, a sequence, a record with unordered keys or an opaque
    reference, and two documents are deeply equal when they are the same
    tree.  The update operators below follow the specification's wording
    of the canonical semantics: [set] overwrites at the path, [unset]
    removes the field, [inc] adds the delta, [push] appends (a batch in
    order), [pull] removes every occurrence equal to the value, [pullAll]
    every occurrence equal to one of the values. *)

#[warnings="-register-all"]
Inductive doc : Type :=
| DUndefined
| DNull
| DNumber (n : Z)
| DString (s : string)
| DBoolean (b : bool)
| DArray (items : list doc)
| DRecord (fields : gmap string doc)
| DObjectID (id : string).


(** The tree a value of the store stands for.  [None]: the fuel ran out or
    a reference leads nowhere. *)
Fixpoint treeOf (h : store) (fuel : nat) (v : value) : option doc :=
  match v with
  | VUndefined => Some DUndefined
  | VNull => Some DNull
  | VNumber n => Some (DNumber n)
  | VString s => Some (DString s)
  | VBoolean b => Some (DBoolean b)
  | VObject l =>
    match fuel with
    | O => None
    | S fuel =>
      match h !! l with
      | Some (Array es) => DArray <$> mapM (treeOf h fuel) es
      | Some (Plain fs) =>
        (fun kvs => DRecord (list_to_map kvs))
          <$> mapM (fun kv => pair kv.1 <$> treeOf h fuel kv.2) fs
      | Some (ObjectID i) => Some (DObjectID i)
      | None => None
      end
    end
  end.


(** The position a segment names in a sequence. *)
Definition position (segment : string) : option nat :=
  match segment with
  | EmptyString => None
  | _ => Z.to_nat <$> readDigits segment 0
  end.










(** ** Flat records *)





Definition setOf (c : Changes) (k : string) : option value := c_set c ≫= (.!! k).
Definition incOf (c : Changes) (k : string) : option Z := c_inc c ≫= (.!! k).
Definition unsetOf (c : Changes) (k : string) : option Z := c_unset c ≫= (.!! k).



(** ** What the engine records for one property *)

Section Recorded.
Variable options : Options.





End Recorded.

(** ** What a run ends in *)

(** [I] holds of the state a call returns with; [T] holds if it throws. *)
Definition ends (I : state -> Prop) (T : Prop) (r : outcome state) : Prop :=
  match r with
  | Done τ => I τ
  | Thrown => T
  | Exhausted => True
  end.

Definition pushOf (c : Changes) (k : string) : option pushed := c_push c ≫= (.!! k).
Definition pullOf (c : Changes) (k : string) : option value := c_pull c ≫= (.!! k).
Definition pullAllOf (c : Changes) (k : string) : option (list value) :=
  c_pullAll c ≫= (.!! k).

(** No path has an entry in [$pull] and one in [$pullAll]. *)
Definition exclusivePulls (c : Changes) : Prop :=
  forall q, is_Some (pullOf c q) -> pullAllOf c q = None.

(** Every operator that is present, [$pull] apart, has an entry. *)
Definition noEmptyButPull (c : Changes) : Prop :=
  c_set c <> Some ∅ /\ c_unset c <> Some ∅ /\ c_inc c <> Some ∅ /\
  c_push c <> Some ∅ /\ c_pullAll c <> Some ∅.

(** Every [$each] wrapper the builder allocated holds two values or more. *)
Definition batchesOfTwo (c : Changes) : Prop :=
  forall q vs, pushOf c q = Some (Each vs) -> (2 <= length vs)%nat.

(** Every [$unset] entry has the operand [1]. *)
Definition unsetOnes (c : Changes) : Prop :=
  forall q z, unsetOf c q = Some z -> z = 1.

(** ** Kinds of values *)



(** The property names of every plain object are pairwise different, as
    the own properties of a JavaScript object are. *)
Definition distinctKeys (h : store) : Prop :=
  forall l fs, h !! l = Some (Plain fs) -> NoDup (keys fs).


(** ** Where a visit writes *)

(** The entries of the six operators at one path. *)
Definition entriesAt (c : Changes) (q : string) :=
  (setOf c q, unsetOf c q, incOf c q, pushOf c q, pullOf c q, pullAllOf c q).

(** [q] is the path [p] or a path below it. *)
Definition atOrBelow (p q : string) : Prop :=
  q = p \/ startsWith (p +:+ ".") q.

(** From [σ] to [τ] the store kept its property names and the entries at
    paths that are neither [p] nor below it are the same. *)
Definition within (p : string) (σ τ : state) : Prop :=
  simpleKeys (heap τ) /\
  forall q, ~ atOrBelow p q -> entriesAt (changes τ) q = entriesAt (changes σ) q.

(** ** The documents of the examples *)

(** Two records sharing the key [a] with different values, the first with a
    key of its own. *)
Definition unlikeRecords : store :=
  list_to_map [(1%positive, Plain [("a", VNumber 1); ("b", VNumber 2)]);
               (2%positive, Plain [("a", VNumber 2)])].

(** The records [{a: 1}], [{b: 2}] and [{}]. *)
Definition disjointRecords : store :=
  list_to_map [(1%positive, Plain [("a", VNumber 1)]);
               (2%positive, Plain [("b", VNumber 2)]);
               (3%positive, Plain [])].

Definition defaults : Options := {| atomicNumbers := false |}.

(** [{a: [1, 2, 3]}] at 1 and [{a: []}] at 2. *)
Definition threeRemoved : store :=
  list_to_map [(1%positive, Plain [("a", VObject 3)]);
               (2%positive, Plain [("a", VObject 4)]);
               (3%positive, Array [VNumber 1; VNumber 2; VNumber 3]);
               (4%positive, Array [])].

(** [{tags: []}] at 1 and [{tags: [0, 1]}] at 2. *)
Definition zeroThenOne : store :=
  list_to_map [(1%positive, Plain [("tags", VObject 3)]);
               (2%positive, Plain [("tags", VObject 4)]);
               (3%positive, Array []);
               (4%positive, Array [VNumber 0; VNumber 1])].

(** [{a: []}] at 1 and [{a: [{$each: [1]}, 2]}] at 2. *)
Definition eachInDocument : store :=
  list_to_map [(1%positive, Plain [("a", VObject 3)]);
               (2%positive, Plain [("a", VObject 4)]);
               (3%positive, Array []);
               (4%positive, Array [VObject 5; VNumber 2]);
               (5%positive, Plain [("$each", VObject 6)]);
               (6%positive, Array [VNumber 1])].





(** [{name: "Tom", age: 30}] at 1 and [{name: "Tom", age: 31}] at 2. *)
Definition birthday : store :=
  list_to_map [(1%positive, Plain [("name", VString "Tom"); ("age", VNumber 30)]);
               (2%positive, Plain [("name", VString "Tom"); ("age", VNumber 31)])].

(** [{a: 1}] at 1 and [{a: null}] at 2. *)
Definition nulled : store :=
  list_to_map [(1%positive, Plain [("a", VNumber 1)]);
               (2%positive, Plain [("a", VNull)])].

(** [{a: [1, 1, 2]}] at 1 and [{a: [1, 2]}] at 2. *)
Definition repeatedElement : store :=
  list_to_map [(1%positive, Plain [("a", VObject 3)]);
               (2%positive, Plain [("a", VObject 4)]);
               (3%positive, Array [VNumber 1; VNumber 1; VNumber 2]);
               (4%positive, Array [VNumber 1; VNumber 2])].

(** [{tags: ["a"]}] at 1 and [{tags: ["a", "b", "c"]}] at 2. *)
Definition twoAppended : store :=
  list_to_map [(1%positive, Plain [("tags", VObject 3)]);
               (2%positive, Plain [("tags", VObject 4)]);
               (3%positive, Array [VString "a"]);
               (4%positive, Array [VString "a"; VString "b"; VString "c"])].


(** The arrays [[1, true, "x"]] at 1, [["1", 1, "x"]] at 2 and
    [[1, true, "y"]] at 3. *)
Definition looselyEqual : store :=
  list_to_map [(1%positive, Array [VNumber 1; VBoolean true; VString "x"]);
               (2%positive, Array [VString "1"; VNumber 1; VString "x"]);
               (3%positive, Array [VNumber 1; VBoolean true; VString "y"])].

(** * Properties *)

(** ** Similarity scores: range *)

Lemma getField_fits h d fs k :
  Forall (fun kv => fits h d kv.2) fs -> fits h d (getField fs k).
Proof.
  induction 1 as [|[k' v] fs Hv _ IH]; simpl; [by destruct d|].
  destruct (String.eqb k' k); [exact Hv | exact IH].
Qed.

Lemma countChanges_bound score ks acc n :
  countChanges score ks acc = Some n -> (acc <= n <= acc + length ks)%nat.
Proof.
  revert acc; induction ks as [|k ks IH]; simpl; intros acc Hc.
  - inversion Hc; lia.
  - destruct (score k) as [s|]; [|discriminate].
    apply IH in Hc. destruct (belowOne s); lia.
Qed.

Lemma countChanges_total score ks acc :
  (forall k, k ∈ ks -> is_Some (score k)) ->
  is_Some (countChanges score ks acc).
Proof.
  revert acc; induction ks as [|k ks IH]; simpl; intros acc Hs; [eauto|].
  destruct (Hs k) as [s ->]; [left|].
  apply IH. intros k' Hk'. apply Hs. by right.
Qed.

Lemma common_length_l f1 f2 : (length (common f1 f2) <= length (keys f1))%nat.
Proof. unfold common. apply length_filter. Qed.

Lemma common_nonempty_r f1 f2 :
  common f1 f2 <> [] -> (0 < length (keys f2))%nat.
Proof.
  unfold common. intros Hne.
  destruct (filter _ _) as [|k ks] eqn:Hf; [congruence|].
  assert (Hk : k ∈ filter (fun k => k ∈ keys f2) (keys f1)) by (rewrite Hf; left).
  apply list_elem_of_filter in Hk as [Hk _].
  destruct (keys f2); [by apply elem_of_nil in Hk | simpl; lia].
Qed.

Lemma divide_positive a b :
  (0 < b)%nat -> divide a b = Finite (Z.of_nat a # Pos.of_nat b).
Proof. destruct b; [lia|]. by destruct a. Qed.

(** The value of the score formula when some key is common. *)
Lemma score_formula_range (keysDifference totalKeys requiredChanges commonKeys : nat) :
  (0 < commonKeys)%nat ->
  (keysDifference < totalKeys)%nat ->
  (requiredChanges <= commonKeys)%nat ->
  exists q,
    minus (minus one (divide keysDifference totalKeys))
          (divide requiredChanges commonKeys) = Finite q
    /\ (-1 < q)%Q /\ (q <= 1)%Q.
Proof.
  intros Hc Hk Hr.
  rewrite !divide_positive by lia. simpl.
  eexists; split; [reflexivity|].
  assert (Ht : Z.pos (Pos.of_nat totalKeys) = Z.of_nat totalKeys)
    by (rewrite <- positive_nat_Z, Nat2Pos.id; lia).
  assert (Hp : Z.pos (Pos.of_nat commonKeys) = Z.of_nat commonKeys)
    by (rewrite <- positive_nat_Z, Nat2Pos.id; lia).
  unfold Qlt, Qle, Qminus, Qplus, Qopp; simpl.
  rewrite !Pos2Z.inj_mul, Ht, Hp. split; nia.
Qed.

Section SimilarityFacts.
Context `{Runtime}.

Lemma plainFields_fits h d a f :
  plainFields h a = Some f -> fits h d a ->
  exists d', d = S d' /\ Forall (fun kv => fits h d' kv.2) f.
Proof.
  destruct a as [| | | | |l]; try discriminate. simpl.
  destruct (h !! l) as [[]|] eqn:Hl; try discriminate.
  intros [= ->] Hfit. destruct d as [|d']; simpl in Hfit; [done|].
  rewrite Hl in Hfit. eauto.
Qed.

(** With fuel for the depth of its first argument, [almostEqual] returns. *)
Lemma almostEqual_returns h d : forall fuel a b,
  fits h d a -> (d <= fuel)%nat -> is_Some (almostEqual h fuel a b).
Proof.
  induction d as [|d IH]; intros fuel a b Hfit Hle.
  - destruct fuel; simpl;
      (destruct (plainFields h a) as [f1|] eqn:Ha; [|eauto]);
      destruct (plainFields_fits _ _ _ _ Ha Hfit) as (? & ? & _); lia.
  - destruct fuel as [|fuel]; [lia|]. simpl.
    destruct (plainFields h a) as [f1|] eqn:Ha; [|eauto].
    destruct (plainFields h b) as [f2|]; [|eauto].
    destruct (plainFields_fits _ _ _ _ Ha Hfit) as (d' & [= <-] & Hf).
    destruct (countChanges_total
                (fun k => almostEqual h fuel (getField f1 k) (getField f2 k))
                (common f1 f2) O) as [n ->]; [|eauto].
    intros k _. apply IH; [by apply getField_fits | lia].
Qed.

(** The score of two values that are not both plain objects. *)
Lemma almostEqual_primitive h fuel a b :
  plainFields h a = None \/ plainFields h b = None ->
  almostEqual h fuel a b = Some (if looseEq h a b then one else zero).
Proof.
  intros Hn. destruct fuel; simpl;
    destruct (plainFields h a), (plainFields h b); try reflexivity;
    destruct Hn; discriminate.
Qed.

(** The score of two plain objects. *)
Lemma almostEqual_plain h fuel a b f1 f2 :
  plainFields h a = Some f1 -> plainFields h b = Some f2 ->
  almostEqual h (S fuel) a b =
  match countChanges
          (fun k => almostEqual h fuel (getField f1 k) (getField f2 k))
          (common f1 f2) O with
  | Some requiredChanges =>
    Some (minus
            (minus one
               (divide (length (keys f1) + length (keys f2)
                        - length (common f1 f2) - length (common f1 f2))
                       (length (keys f1) + length (keys f2)
                        - length (common f1 f2))))
            (divide requiredChanges (length (common f1 f2))))
  | None => None
  end.
Proof. intros Ha Hb. simpl. by rewrite Ha, Hb. Qed.

(** C3, as the code has it: on an acyclic first argument and with fuel for
    its depth, [almostEqual] returns; the score is exactly one or zero
    unless both values are plain objects, and for two plain objects with a
    common key it is a rational number in the interval (-1, 1]. *)
Theorem almostEqual_range h d fuel a b :
  fits h d a -> (d <= fuel)%nat ->
  exists s, almostEqual h fuel a b = Some s /\
    match plainFields h a, plainFields h b with
    | Some f1, Some f2 =>
      common f1 f2 <> [] -> exists q, s = Finite q /\ (-1 < q)%Q /\ (q <= 1)%Q
    | _, _ => s = one \/ s = zero
    end.
Proof.
  intros Hfit Hle.
  destruct (almostEqual_returns h d fuel a b Hfit Hle) as [s Hs].
  exists s; split; [exact Hs|].
  destruct (plainFields h a) as [f1|] eqn:Ha.
  2:{ rewrite almostEqual_primitive in Hs by (rewrite Ha; auto).
      injection Hs as <-. destruct (looseEq h a b); auto. }
  destruct (plainFields h b) as [f2|] eqn:Hb.
  2:{ rewrite almostEqual_primitive in Hs by auto.
      injection Hs as <-. destruct (looseEq h a b); auto. }
  intros Hcommon.
  destruct fuel as [|fuel].
  { simpl in Hs. rewrite Ha, Hb in Hs. discriminate. }
  rewrite (almostEqual_plain _ _ _ _ _ _ Ha Hb) in Hs.
  destruct (countChanges _ _ _) as [n|] eqn:Hn; [|discriminate].
  injection Hs as <-.
  apply countChanges_bound in Hn.
  pose proof (common_length_l f1 f2).
  pose proof (common_nonempty_r f1 f2 Hcommon).
  assert (0 < length (common f1 f2))%nat
    by (destruct (common f1 f2); [congruence | simpl; lia]).
  apply score_formula_range; lia.
Qed.

End SimilarityFacts.

(** C3 as stated fails: [almostEqual({a: 1, b: 2}, {a: 2})] is [-1/2]. *)
Lemma almostEqual_negative :
  almostEqual unlikeRecords 1 (VObject 1) (VObject 2) = Some (Finite (-1 # 2))
  /\ ~ inUnitInterval (Finite (-1 # 2)).
Proof.
  split; [reflexivity|]. simpl. intros [Hq _].
  unfold Qle in Hq; simpl in Hq; lia.
Qed.

Lemma almostEqual_range_witness :
  exists s, almostEqual unlikeRecords 1 (VObject 1) (VObject 2) = Some s /\
    (common [("a", VNumber 1); ("b", VNumber 2)] [("a", VNumber 2)] <> [] ->
     exists q, s = Finite q /\ (-1 < q)%Q /\ (q <= 1)%Q).
Proof.
  apply (almostEqual_range unlikeRecords 1 1 (VObject 1) (VObject 2)).
  - simpl. repeat constructor.
  - lia.
Defined.

(** ** Similarity scores: records without a common key *)

Section DisjointRecords.
Context `{Runtime}.

(** Without a common key the last division is [0 / 0]. *)
Lemma almostEqual_disjoint h fuel a b f1 f2 :
  plainFields h a = Some f1 -> plainFields h b = Some f2 ->
  common f1 f2 = [] ->
  almostEqual h (S fuel) a b = Some NaN.
Proof.
  intros Ha Hb Hc. rewrite (almostEqual_plain _ _ _ _ _ _ Ha Hb), Hc. simpl.
  by destruct (divide _ _) as [|[]|].
Qed.

End DisjointRecords.

(** C5 at its failing inputs: [almostEqual({a: 1}, {b: 2})] and
    [almostEqual({}, {})] are both [NaN]; the division is not guarded. *)
Lemma almostEqual_disjoint_is_NaN :
  almostEqual disjointRecords 1 (VObject 1) (VObject 2) = Some NaN
  /\ almostEqual disjointRecords 1 (VObject 3) (VObject 3) = Some NaN.
Proof. split; reflexivity. Qed.

(** ** The accumulator: operators with an empty mapping *)

(** C6 at its failing input: [diff({a: [1, 2, 3]}, {a: []})] is
    [{$pull: {}, $pullAll: {a: [1, 2, 3]}}].  The third [pull] creates
    [$pull] anew and returns through the [$pullAll] branch. *)
Lemma three_pulls_leave_empty_pull :
  exists c,
    diff defaults 3 threeRemoved (VObject 1) (VObject 2)
    = Done {| heap := threeRemoved; changes := c |}
    /\ c_pull c = Some ∅
    /\ c_pullAll c = Some {[ "a" := [VNumber 1; VNumber 2; VNumber 3] ]}
    /\ ~ noEmptyOperator c.
Proof.
  eexists. split; [vm_compute; reflexivity|].
  split; [reflexivity|]. split; [reflexivity|].
  intros (_ & _ & _ & _ & Hpull & _). by apply Hpull.
Qed.

(** ** Appending *)

(** C8 at its failing input: [diff({tags: []}, {tags: [0, 1]})] is
    [{$push: {tags: 1}}].  The entry [0] left by the first [push] is falsy,
    so the second [push] overwrites it instead of building [$each]. *)
Lemma falsy_push_is_overwritten :
  diff defaults 5 zeroThenOne (VObject 1) (VObject 2)
  = Done {| heap := zeroThenOne;
            changes := withPush (Some {[ "tags" := Single (VNumber 1) ]}) noChanges |}.
Proof. vm_compute. reflexivity. Qed.

(** ** The documents after the call *)

(** C10 at its failing input: after
    [diff({a: []}, {a: [{$each: [1]}, 2]})] the array [[1]] of [modified]
    holds [[1, 2]].  The second [push] finds the document's own
    [{$each: [1]}] under [$push.a] and appends to its [$each]. *)
Lemma push_appends_to_the_document :
  exists σ,
    diff defaults 5 eachInDocument (VObject 1) (VObject 2) = Done σ
    /\ treeOf eachInDocument 4 (VObject 2)
       = Some (DRecord {[ "a" := DArray [DRecord {[ "$each" := DArray [DNumber 1] ]};
                                         DNumber 2] ]})
    /\ treeOf (heap σ) 4 (VObject 2)
       = Some (DRecord {[ "a" := DArray [DRecord {[ "$each" := DArray [DNumber 1;
                                                                       DNumber 2] ]};
                                         DNumber 2] ]})
    /\ heap σ <> eachInDocument.
Proof.
  eexists. split; [vm_compute; reflexivity|].
  split; [vm_compute; reflexivity|]. split; [vm_compute; reflexivity|].
  intros Heq. apply (f_equal (fun h : store => h !! 6%positive)) in Heq.
  vm_compute in Heq. discriminate.
Qed.

(** ** One step of the engine *)

Section Unfolding.
Context `{Runtime}.
Variable options : Options.

Lemma onObject_step fuel original modified changePath σ :
  onObject options (S fuel) original modified changePath σ =
  if nullish original then
    if strictEq original modified then Done σ
    else record (Omnom.set changePath modified) σ
  else if changedNumber original modified then
    if atomicNumbers options
    then record (Omnom.inc changePath (difference modified original)) σ
    else record (Omnom.set changePath modified) σ
  else if isArray (heap σ) original && isArray (heap σ) modified then
    onArray options fuel original modified changePath σ
  else
    match objectId (heap σ) original, objectId (heap σ) modified with
    | Some a, Some b =>
      if String.eqb a b then Done σ
      else record (Omnom.set changePath modified) σ
    | _, _ =>
      match plainFields (heap σ) original, plainFields (heap σ) modified with
      | Some fo, Some fm =>
        σ ← forEach (fun key σ =>
               if isArray (heap σ) (getField fm key)
                  && isArray (heap σ) (getField fo key)
               then onArray options fuel (getField fo key) (getField fm key)
                      (Some (resolve changePath key)) σ
               else onObject options fuel (getField fo key) (getField fm key)
                      (Some (resolve changePath key)) σ)
             (keys fm) σ;
        forEach (fun key σ =>
            if nullish (getField fm key)
            then record (Omnom.unset (Some (resolve changePath key))) σ
            else Done σ)
          (keys fo) σ
      | _, _ =>
        equal ← need (isEqual (heap σ) fuel original modified);
        if equal : bool then Done σ
        else record (Omnom.set changePath modified) σ
      end
    end.
Proof. reflexivity. Qed.

Lemma onArray_step fuel original modified changePath σ :
  onArray options (S fuel) original modified changePath σ =
  let h := heap σ in
  let o := elements h original in
  let m := elements h modified in
  if (length m <? length o)%nat then
    '(j, pulls) ← need (collectPulls h fuel o m O []);
    if Nat.eqb j (length m) then
      match pulls with
      | [pull] => record (Omnom.pull changePath pull) σ
      | _ => forEach (fun pull => record (Omnom.pull changePath pull)) pulls σ
      end
    else record (Omnom.set changePath modified) σ
  else
    appendOnly ← (if (length o <? length m)%nat
                  then need (canPush h fuel o m O)
                  else Done false);
    if appendOnly : bool
    then pushLoop fuel modified changePath (length o) σ
    else
      '(sets, partials) ← need (classify h fuel o m (seq 0 (length m)) [] []);
      if (length m <? 2 * length sets)%nat
      then record (Omnom.set changePath modified) σ
      else
        σ ← forEach (fun i =>
               record (Omnom.set (Some (resolve changePath (indexName i)))
                                 (getIndex m i)))
             sets σ;
        forEach (fun i σ =>
            onObject options fuel
              (getIndex (elements (heap σ) original) i)
              (getIndex (elements (heap σ) modified) i)
              (Some (resolve changePath (indexName i))) σ)
          partials σ.
Proof. reflexivity. Qed.

End Unfolding.

(** ** Appending: when the batch is built *)







Section Appending.
Context `{Runtime}.
Variable options : Options.


End Appending.

(** ** When the store is left alone *)

Lemma forEach_heap {A : Type} (body : A -> state -> outcome state) l : forall σ τ,
  (forall x υ υ', heap υ = heap σ -> body x υ = Done υ' -> heap υ' = heap σ) ->
  forEach body l σ = Done τ -> heap τ = heap σ.
Proof.
  induction l as [|x l IH]; intros σ τ Hb Hrun; simpl in Hrun.
  - by injection Hrun as <-.
  - destruct (body x σ) as [σ1| |] eqn:Hx; try done. simpl in Hrun.
    assert (H1 : heap σ1 = heap σ) by (by eapply Hb).
    rewrite <- H1. eapply IH; [|done].
    intros y υ υ' Hυ Hy. rewrite H1. eapply Hb; [|done]. congruence.
Qed.

Lemma push_heap path v σ τ :
  noEach (heap σ) -> push path v σ = Done τ -> heap τ = heap σ.
Proof.
  unfold push. intros Hno Hp.
  destruct (_ !! _) as [[previous|vs]|]; try (by injection Hp as <-).
  destruct (truthy previous); [|by injection Hp as <-].
  assert (Heach : truthy (getProperty (heap σ) previous "$each") = false).
  { unfold getProperty. destruct (plainFields (heap σ) previous) as [fs|] eqn:Hf; [|done].
    destruct previous as [| | | | |l]; try discriminate. simpl in Hf.
    destruct (heap σ !! l) as [[]|] eqn:Hl; try discriminate.
    injection Hf as ->. by apply (Hno l). }
  rewrite Heach in Hp. by injection Hp as <-.
Qed.

Lemma pushLoop_heap fuel modified path : forall i σ τ,
  noEach (heap σ) -> pushLoop fuel modified path i σ = Done τ -> heap τ = heap σ.
Proof.
  induction fuel as [|fuel IH]; intros i σ τ Hno Hp; simpl in Hp; [done|].
  destruct (_ <? _)%nat; [|by injection Hp as <-].
  destruct (push path _ σ) as [σ1| |] eqn:Hpush; try done. simpl in Hp.
  pose proof (push_heap _ _ _ _ Hno Hpush) as H1.
  rewrite <- H1. eapply IH; [|done]. by rewrite H1.
Qed.

Section StoreKept.
Context `{Runtime}.
Variable options : Options.

(** Unless a plain object of the store has a truthy [$each], a visit leaves
    the store as it was. *)
Lemma visits_keep_store fuel :
  (forall original modified changePath σ τ,
     noEach (heap σ) ->
     onObject options fuel original modified changePath σ = Done τ ->
     heap τ = heap σ)
  /\
  (forall original modified changePath σ τ,
     noEach (heap σ) ->
     onArray options fuel original modified changePath σ = Done τ ->
     heap τ = heap σ).
Proof.
  induction fuel as [|fuel [IHo IHa]]; [split; intros; discriminate|].
  split; intros original modified changePath σ τ Hno Hrun.
  - rewrite onObject_step in Hrun.
    destruct (nullish original).
    { destruct (strictEq original modified); by injection Hrun as <-. }
    destruct (changedNumber original modified).
    { destruct (atomicNumbers options); by injection Hrun as <-. }
    destruct (isArray (heap σ) original && isArray (heap σ) modified).
    { by eapply IHa. }
    assert (Hfallback :
      (equal ← need (isEqual (heap σ) fuel original modified);
       if equal : bool then Done σ
       else record (Omnom.set changePath modified) σ) = Done τ ->
      heap τ = heap σ).
    { destruct (isEqual _ _ _ _) as [[]|]; simpl; intros Hr; try done;
        by injection Hr as <-. }
    destruct (objectId (heap σ) original), (objectId (heap σ) modified);
      try (destruct (String.eqb _ _); by injection Hrun as <-);
      (destruct (plainFields (heap σ) original) as [fo|]; [|by apply Hfallback]);
      (destruct (plainFields (heap σ) modified) as [fm|]; [|by apply Hfallback]);
      (destruct (forEach _ (keys fm) σ) as [σ1| |] eqn:Hloop; try done);
      simpl in Hrun;
      (assert (H1 : heap σ1 = heap σ);
       [eapply forEach_heap; [|exact Hloop];
        intros key υ υ' Hυ Hb; simpl in Hb; rewrite <- Hυ;
        (destruct (_ && _); [eapply IHa | eapply IHo]); [|exact Hb| |exact Hb];
        by rewrite Hυ
       |]);
      rewrite <- H1; (eapply forEach_heap; [|exact Hrun]);
      intros key υ υ' Hυ Hb; simpl in Hb;
      destruct (nullish _); injection Hb as <-; done.
  - rewrite onArray_step in Hrun. cbv zeta in Hrun.
    destruct (_ <? _)%nat.
    { destruct (collectPulls _ _ _ _ _ _) as [[j pulls]|]; simpl in Hrun; [|done].
      destruct (Nat.eqb _ _); [|by injection Hrun as <-].
      assert (Hpulls : forEach (fun pull => record (Omnom.pull changePath pull)) pulls σ
                       = Done τ -> heap τ = heap σ).
      { intros Hr. eapply forEach_heap; [|exact Hr].
        intros x υ υ' Hυ Hb. by injection Hb as <-. }
      destruct pulls as [|pull [|pull' pulls]]; by apply Hpulls. }
    destruct (if (_ <? _)%nat then _ else _) as [[]| |]; simpl in Hrun; try done.
    { by eapply pushLoop_heap. }
    destruct (classify _ _ _ _ _ _ _) as [[sets partials]|]; simpl in Hrun; [|done].
    destruct (_ <? _)%nat; [by injection Hrun as <-|].
    destruct (forEach _ sets σ) as [σ1| |] eqn:Hsets; try done. simpl in Hrun.
    assert (H1 : heap σ1 = heap σ).
    { eapply forEach_heap; [|exact Hsets].
      intros x υ υ' Hυ Hb. by injection Hb as <-. }
    rewrite <- H1. eapply forEach_heap; [|exact Hrun].
    intros i υ υ' Hυ Hb. simpl in Hb. rewrite <- Hυ.
    eapply IHo; [|exact Hb]. by rewrite Hυ, H1.
Qed.

(** [diff] leaves both documents as they were when no plain object has a
    truthy [$each]. *)
Lemma diff_keeps_store fuel h original modified τ :
  noEach h ->
  diff options fuel h original modified = Done τ -> heap τ = h.
Proof.
  intros Hno Hrun. destruct (visits_keep_store fuel) as [Ho _].
  by apply (Ho original modified None {| heap := h; changes := noChanges |}).
Qed.

End StoreKept.

(** ** Positional reconciliation *)

Section Positional.
Context `{Runtime}.
Variable options : Options.

Lemma classify_scores h fuel o m (score : nat -> number) : forall indices sets partials,
  (forall i, i ∈ indices ->
     almostEqual h fuel (getIndex o i) (getIndex m i) = Some (score i)) ->
  classify h fuel o m indices sets partials
  = Some (sets ++ filter (fun i => isZero (score i)) indices,
          partials ++ filter (fun i => negb (isZero (score i)) && belowOne (score i))
                        indices).
Proof.
  induction indices as [|i indices IH]; intros sets partials Hs; simpl.
  - by rewrite !app_nil_r.
  - rewrite (Hs i) by left.
    assert (Hrest : forall i', i' ∈ indices ->
              almostEqual h fuel (getIndex o i') (getIndex m i') = Some (score i'))
      by (intros; apply Hs; by right).
    rewrite !filter_cons.
    destruct (isZero (score i)) eqn:Hz; simpl.
    + rewrite IH by done. destruct (decide True); [|tauto].
      destruct (decide False); [tauto|]. by rewrite <- app_assoc.
    + destruct (decide False); [tauto|].
      destruct (belowOne (score i)); simpl; rewrite IH by done.
      * destruct (decide True); [|tauto]. by rewrite <- app_assoc.
      * destruct (decide False); [tauto|]. done.
Qed.



End Positional.


(** ** Comparing a document with itself *)




Lemma filter_none {A : Type} (P : A -> Prop) `{forall x, Decision (P x)} (l : list A) :
  (forall x, x ∈ l -> ~ P x) -> filter P l = [].
Proof.
  induction l as [|x l IH]; intros Hp; [done|].
  rewrite filter_cons_False by (apply Hp; left).
  apply IH. intros; apply Hp; by right.
Qed.




Section Identity.
Context `{Runtime}.
Variable options : Options.










End Identity.



(** ** One changed number *)





Section OneNumber.
Context `{Runtime}.
Variable options : Options.










End OneNumber.



(** ** Paths *)

Lemma append_assoc (a b c : string) : (a +:+ b) +:+ c = a +:+ b +:+ c.
Proof.
  induction a as [|x a IH]; [done|].
  change (String x ((a +:+ b) +:+ c) = String x (a +:+ b +:+ c)). by rewrite IH.
Qed.

Lemma append_nil_inv (a b : string) : a +:+ b = "" -> a = "" /\ b = "".
Proof. destruct a; [done|discriminate]. Qed.


Lemma resolve_root k : k <> "" -> resolve None k = k.
Proof. intros Hk. unfold resolve. simpl. by rewrite filter_cons_True. Qed.

Lemma resolve_empty k : k <> "" -> resolve (Some "") k = k.
Proof.
  intros Hk. unfold resolve. simpl.
  rewrite filter_cons_False by auto. by rewrite filter_cons_True.
Qed.

Lemma resolve_below p k :
  p <> "" -> k <> "" -> resolve (Some p) k = p +:+ "." +:+ k.
Proof.
  intros Hp Hk. unfold resolve. simpl. by rewrite !filter_cons_True.
Qed.

Lemma resolve_nonempty changePath k : k <> "" -> resolve changePath k <> "".
Proof.
  intros Hk. destruct changePath as [p|]; [|by rewrite resolve_root].
  destruct (decide (p = "")) as [->|Hp]; [by rewrite resolve_empty|].
  rewrite resolve_below by done. intros E. by apply append_nil_inv in E as [? _].
Qed.

(** For non-empty keys, [resolve changePath] is injective. *)
Lemma resolve_inj changePath k k' :
  k <> "" -> k' <> "" -> resolve changePath k = resolve changePath k' -> k = k'.
Proof.
  intros Hk Hk'. destruct changePath as [p|]; [|by rewrite !resolve_root].
  destruct (decide (p = "")) as [->|Hp]; [by rewrite !resolve_empty|].
  rewrite !resolve_below by done. intros E.
  by apply (inj (String.append p)), (inj (String.append ".")) in E.
Qed.


Lemma indexName_nonempty i : indexName i <> "".
Proof.
  unfold indexName, pretty, pretty_nat, pretty, pretty_N.
  case_decide; [done|].
  assert (Hgo : forall x s, s <> "" -> pretty_N_go x s <> "").
  { intros x. induction (N.lt_wf_0 x) as [x _ IH]. intros s Hs.
    destruct (decide (x = 0)%N) as [->|Hx]; [by rewrite pretty_N_go_0|].
    rewrite pretty_N_go_step by lia. apply IH; [|done].
    apply N.div_lt; lia. }
  rewrite pretty_N_go_step by lia. by apply Hgo.
Qed.

(** ** Where [$unset] entries come from *)







Lemma pull_unset path v c : c_unset (Omnom.pull path v c) = c_unset c.
Proof. unfold Omnom.pull. by repeat case_match. Qed.


Lemma simpleKeys_insert_array h l es :
  simpleKeys h -> simpleKeys (<[l := Array es]> h).
Proof.
  intros Hk l' fs Hl'. destruct (decide (l = l')) as [->|Hne].
  - rewrite lookup_insert_eq in Hl'. discriminate.
  - rewrite lookup_insert_ne in Hl' by done. by apply (Hk l').
Qed.

Lemma push_sameUnsets path v σ τ :
  simpleKeys (heap σ) -> push path v σ = Done τ -> sameUnsets σ τ.
Proof.
  unfold push. intros Hk Hp.
  repeat case_match; simplify_eq; split; simpl; try done.
  by apply simpleKeys_insert_array.
Qed.




Section UnsetProvenance.
Context `{Runtime}.
Variable options : Options.

Lemma plainFields_keys h v fs :
  simpleKeys h -> plainFields h v = Some fs -> Forall (fun k => k <> "") (keys fs).
Proof.
  intros Hk Hv. destruct v as [| | | | |l]; try discriminate. simpl in Hv.
  destruct (h !! l) as [[]|] eqn:Hl; try discriminate.
  injection Hv as <-. by apply (Hk l).
Qed.






End UnsetProvenance.



(** ** The round trip *)


(** ** The round trip on flat records *)


Lemma forEach_record {A : Type} (f : A -> Changes -> Changes) l : forall σ,
  forEach (fun x => record (f x)) l σ
  = Done {| heap := heap σ; changes := foldl (fun c x => f x c) (changes σ) l |}.
Proof.
  induction l as [|x l IH]; intros σ; simpl; [by destruct σ|].
  by rewrite IH.
Qed.




Section FlatRecords.
Context `{Runtime}.
Variable options : Options.




End FlatRecords.

(** *** Reading the accumulator entry by entry *)

Lemma lookup_insert_default {A : Type} (m : option (gmap string A)) k' x k :
  Some (<[k' := x]> (default ∅ m)) ≫= (.!! k)
  = if decide (k = k') then Some x else m ≫= (.!! k).
Proof.
  simpl. destruct (decide (k = k')) as [->|Hne].
  - by rewrite lookup_insert_eq.
  - rewrite lookup_insert_ne by done. destruct m; simpl; [done|].
    by rewrite lookup_empty.
Qed.









(** *** The operators on a record, entry by entry *)




Section RoundTrip.
Context `{Runtime}.
Variable options : Options.







End RoundTrip.


(** * Further properties *)

(** ** Invariants of a run *)

Lemma ends_bind (I : state -> Prop) (T : Prop) (m : outcome state)
    (f : state -> outcome state) :
  ends I T m -> (forall σ, I σ -> ends I T (f σ)) -> ends I T (m ≫= f).
Proof. destruct m; simpl; auto. Qed.

Lemma forEach_ends {A : Type} (I : state -> Prop) (T : Prop)
    (body : A -> state -> outcome state) l :
  (forall x σ, I σ -> ends I T (body x σ)) ->
  forall σ, I σ -> ends I T (forEach body l σ).
Proof.
  intros Hb. induction l as [|x l IH]; intros σ Hi; simpl; [done|].
  apply ends_bind; auto.
Qed.

Section Invariants.
Context `{Runtime}.
Variable options : Options.
Variable I : state -> Prop.
Variable T : Prop.

(** What the builder calls must keep: [inc] only when the engine can call
    it, [push] up to the [TypeError] it may end in. *)
Hypothesis keeps_set : forall path v σ,
  I σ -> I {| heap := heap σ; changes := Omnom.set path v (changes σ) |}.
Hypothesis keeps_unset : forall path σ,
  I σ -> I {| heap := heap σ; changes := Omnom.unset path (changes σ) |}.
Hypothesis keeps_inc : atomicNumbers options = true -> forall path delta σ,
  I σ -> I {| heap := heap σ; changes := Omnom.inc path delta (changes σ) |}.
Hypothesis keeps_pull : forall path v σ,
  I σ -> I {| heap := heap σ; changes := Omnom.pull path v (changes σ) |}.
Hypothesis keeps_push : forall path v σ, I σ -> ends I T (push path v σ).

Lemma pushLoop_ends fuel modified path : forall i σ,
  I σ -> ends I T (pushLoop fuel modified path i σ).
Proof.
  induction fuel as [|fuel IH]; intros i σ Hi; simpl; [done|].
  destruct (_ <? _)%nat; [|done]. apply ends_bind; auto.
Qed.

(** An invariant of the builder calls is an invariant of every visit. *)
Lemma visits_end fuel :
  (forall original modified changePath σ,
     I σ -> ends I T (onObject options fuel original modified changePath σ))
  /\
  (forall original modified changePath σ,
     I σ -> ends I T (onArray options fuel original modified changePath σ)).
Proof.
  induction fuel as [|fuel [IHo IHa]]; [by split|].
  split; intros original modified changePath σ Hi.
  - rewrite onObject_step.
    destruct (nullish original).
    { destruct (strictEq original modified); simpl; auto. }
    destruct (changedNumber original modified).
    { destruct (atomicNumbers options) eqn:Hat; simpl; auto. }
    destruct (isArray (heap σ) original && isArray (heap σ) modified); [auto|].
    assert (Hfallback : ends I T
      (equal ← need (isEqual (heap σ) fuel original modified);
       if equal : bool then Done σ
       else record (Omnom.set changePath modified) σ)).
    { destruct (isEqual _ _ _ _) as [[]|]; simpl; auto. }
    destruct (objectId (heap σ) original), (objectId (heap σ) modified);
      try (destruct (String.eqb _ _); simpl; by auto);
      (destruct (plainFields (heap σ) original) as [fo|]; [|exact Hfallback]);
      (destruct (plainFields (heap σ) modified) as [fm|]; [|exact Hfallback]);
      (apply ends_bind;
       [apply forEach_ends; [|done]; intros key υ Hυ; simpl;
        destruct (_ && _); auto
       |intros σ1 H1; apply forEach_ends; [|done]; intros key υ Hυ; simpl;
        destruct (nullish _); simpl; auto]).
  - rewrite onArray_step. cbv zeta.
    destruct (_ <? _)%nat.
    { destruct (collectPulls _ _ _ _ _ _) as [[j pulls]|]; simpl; [|done].
      destruct (Nat.eqb _ _); [|simpl; auto].
      assert (Hpulls : ends I T
                (forEach (fun pull => record (Omnom.pull changePath pull)) pulls σ)).
      { apply forEach_ends; [|done]. intros x υ Hυ. simpl. auto. }
      destruct pulls as [|pull [|pull' pulls]]; exact Hpulls. }
    assert (Hrest : ends I T
      ('(sets, partials) ← need (classify (heap σ) fuel (elements (heap σ) original)
                                   (elements (heap σ) modified)
                                   (seq 0 (length (elements (heap σ) modified))) [] []);
       if (length (elements (heap σ) modified) <? 2 * length sets)%nat
       then record (Omnom.set changePath modified) σ
       else
         σ ← forEach (fun i =>
                record (Omnom.set (Some (resolve changePath (indexName i)))
                          (getIndex (elements (heap σ) modified) i)))
              sets σ;
         forEach (fun i σ =>
             onObject options fuel
               (getIndex (elements (heap σ) original) i)
               (getIndex (elements (heap σ) modified) i)
               (Some (resolve changePath (indexName i))) σ)
           partials σ)).
    2:{ destruct (_ <? _)%nat; [|exact Hrest].
        destruct (canPush _ _ _ _ _) as [[]|]; simpl; [|exact Hrest|done].
        by apply pushLoop_ends. }
    destruct (classify _ _ _ _ _ _ _) as [[sets partials]|]; simpl; [|done].
    destruct (_ <? _)%nat; [simpl; auto|].
    apply ends_bind.
    + apply forEach_ends; [|done]. intros i υ Hυ. simpl. auto.
    + intros σ1 H1. apply forEach_ends; [|done]. intros i υ Hυ. auto.
Qed.

Lemma diff_ends fuel h original modified :
  I {| heap := h; changes := noChanges |} ->
  ends I T (diff options fuel h original modified).
Proof. intros Hi. by apply (proj1 (visits_end fuel)). Qed.

End Invariants.

(** *** What the builder calls leave alone *)

Lemma pull_others path v c :
  c_set (Omnom.pull path v c) = c_set c /\
  c_inc (Omnom.pull path v c) = c_inc c /\
  c_push (Omnom.pull path v c) = c_push c.
Proof. unfold Omnom.pull. by repeat case_match. Qed.

Lemma push_others path v σ τ :
  push path v σ = Done τ ->
  c_set (changes τ) = c_set (changes σ) /\
  c_unset (changes τ) = c_unset (changes σ) /\
  c_inc (changes τ) = c_inc (changes σ) /\
  c_pull (changes τ) = c_pull (changes σ) /\
  c_pullAll (changes τ) = c_pullAll (changes σ).
Proof. unfold push. intros Hp. by repeat case_match; simplify_eq. Qed.

(** X1: a change set made by [ModelHelpers.diff] has no [$inc]: the helper
    builds its [Omnom] without options, so a changed number is always
    recorded under [$set]. *)
Theorem helpers_diff_never_increments `{Runtime} fuel h original modified τ :
  ModelHelpers.diff fuel h original modified = Done τ ->
  c_inc (changes τ) = None.
Proof.
  intros Hrun.
  pose proof (diff_ends {| atomicNumbers := false |}
                (fun σ => c_inc (changes σ) = None) True) as Hinv.
  unfold ModelHelpers.diff in Hrun.
  specialize (Hinv ltac:(done) ltac:(done) ltac:(done)).
  assert (Hpull : forall path v σ, c_inc (changes σ) = None ->
            c_inc (changes {| heap := heap σ;
                              changes := Omnom.pull path v (changes σ) |}) = None).
  { intros path v σ Hi. simpl. by rewrite (proj1 (proj2 (pull_others path v _))). }
  assert (Hpush : forall path v σ, c_inc (changes σ) = None ->
            ends (fun σ => c_inc (changes σ) = None) True (push path v σ)).
  { intros path v σ Hi. destruct (push path v σ) as [υ| |] eqn:Hp; simpl; try done.
    apply push_others in Hp as (_ & _ & -> & _). done. }
  specialize (Hinv Hpull Hpush fuel h original modified eq_refl).
  by rewrite Hrun in Hinv.
Qed.

Lemma helpers_diff_never_increments_witness :
  c_inc (changes {| heap := birthday;
                    changes := withSet (Some {[ "age" := VNumber 31 ]}) noChanges |})
  = None.
Proof.
  apply (helpers_diff_never_increments 2 birthday (VObject 1) (VObject 2)).
  vm_compute. reflexivity.
Defined.

(** *** The three cases of [pull], entry by entry *)

Lemma lookup_default {A : Type} (m : option (gmap string A)) q :
  default ∅ m !! q = m ≫= (.!! q).
Proof. destruct m; simpl; [done|apply lookup_empty]. Qed.

Lemma pull_appends path v c values :
  pullAllOf c (propertyKey path) = Some values ->
  forall q,
    pullAllOf (Omnom.pull path v c) q
    = (if decide (q = propertyKey path) then Some (values ++ [v]) else pullAllOf c q)
    /\ pullOf (Omnom.pull path v c) q = pullOf c q.
Proof.
  unfold pullAllOf, pullOf, Omnom.pull. intros Hall q.
  cbn [c_pullAll withPull]. rewrite Hall. cbn [c_pullAll c_pull withPullAll withPull].
  split; [apply lookup_insert_default|]. simpl. apply lookup_default.
Qed.

Lemma pull_pairs path v c previous :
  pullAllOf c (propertyKey path) = None ->
  pullOf c (propertyKey path) = Some previous -> truthy previous = true ->
  forall q,
    pullAllOf (Omnom.pull path v c) q
    = (if decide (q = propertyKey path) then Some [previous; v] else pullAllOf c q)
    /\ pullOf (Omnom.pull path v c) q
       = (if decide (q = propertyKey path) then None else pullOf c q).
Proof.
  unfold pullAllOf, pullOf, Omnom.pull. intros Hall Hone Ht q.
  cbn [c_pullAll withPull]. rewrite Hall, lookup_default, Hone, Ht.
  unfold Omnom.pullAll. cbn [c_pullAll c_pull withPullAll withPull].
  split; [apply lookup_insert_default|].
  assert (Hdel : delete (propertyKey path) (default ∅ (c_pull c)) !! q
                 = if decide (q = propertyKey path) then None else c_pull c ≫= (.!! q)).
  { destruct (decide (q = propertyKey path)) as [->|Hne].
    - apply lookup_delete_eq.
    - rewrite lookup_delete_ne by done. apply lookup_default. }
  case_bool_decide as Hempty; simpl; [|done].
  rewrite <- Hdel, Hempty. by rewrite lookup_empty.
Qed.

Lemma pull_single path v c :
  pullAllOf c (propertyKey path) = None ->
  (forall previous, pullOf c (propertyKey path) = Some previous ->
                    truthy previous = false) ->
  Omnom.pull path v c
  = withPull (Some (<[propertyKey path := v]> (default ∅ (c_pull c)))) c.
Proof.
  unfold pullAllOf, pullOf, Omnom.pull. intros Hall Hone.
  cbn [c_pullAll withPull]. rewrite Hall, lookup_default.
  destruct c as [s u i p pl pa]; simpl in *.
  destruct (pl ≫= _) as [previous|]; [|done]. by rewrite (Hone previous).
Qed.

Lemma pull_exclusive path v c :
  exclusivePulls c -> exclusivePulls (Omnom.pull path v c).
Proof.
  intros Hex q.
  destruct (pullAllOf c (propertyKey path)) as [values|] eqn:Hall.
  { destruct (pull_appends path v c values Hall q) as [-> ->].
    intros Hq. destruct (decide (q = propertyKey path)) as [->|]; [|auto].
    apply Hex in Hq. congruence. }
  destruct (pullOf c (propertyKey path)) as [previous|] eqn:Hone.
  - destruct (truthy previous) eqn:Ht.
    + destruct (pull_pairs path v c previous Hall Hone Ht q) as [-> ->].
      destruct (decide (q = propertyKey path)); [by intros [? ?]|auto].
    + rewrite pull_single by (done || congruence).
      unfold pullOf, pullAllOf. cbn [c_pull c_pullAll withPull].
      rewrite lookup_insert_default.
      destruct (decide (q = propertyKey path)) as [->|]; [done|apply Hex].
  - rewrite pull_single by (done || congruence).
    unfold pullOf, pullAllOf. cbn [c_pull c_pullAll withPull].
    rewrite lookup_insert_default.
    destruct (decide (q = propertyKey path)) as [->|]; [done|apply Hex].
Qed.

(** *** The store and the [TypeError] *)





(** *** The shape of the change set *)

(** X3: in a change set made by [diff] no path has an entry both in
    [$pull] and in [$pullAll]: the second value pulled at a path moves the
    first one to [$pullAll]. *)
Theorem diff_pulls_are_exclusive `{Runtime} options fuel h original modified τ q :
  diff options fuel h original modified = Done τ ->
  is_Some (pullOf (changes τ) q) -> pullAllOf (changes τ) q = None.
Proof.
  intros Hrun.
  assert (Hinv : ends (fun σ => exclusivePulls (changes σ)) True
                   (diff options fuel h original modified)).
  { apply diff_ends; try done.
    - intros path v σ. apply pull_exclusive.
    - intros path v σ Hσ. destruct (push path v σ) as [υ| |] eqn:Hp; simpl; [|done..].
      apply push_others in Hp as (_ & _ & _ & Hpull & Hall). intros q'.
      unfold pullOf, pullAllOf. rewrite Hpull, Hall. apply Hσ. }
  rewrite Hrun in Hinv. apply Hinv.
Qed.

Lemma diff_pulls_are_exclusive_witness :
  pullAllOf (changes {| heap := repeatedElement;
                        changes := withPull (Some {[ "a" := VNumber 1 ]}) noChanges |})
            "a" = None.
Proof.
  apply (diff_pulls_are_exclusive defaults 3 repeatedElement (VObject 1) (VObject 2)).
  - vm_compute. reflexivity.
  - by eexists.
Defined.

(** X4: in a change set made by [diff] every operator that is present,
    [$pull] apart, has at least one entry. *)
Theorem diff_operators_are_inhabited `{Runtime} options fuel h original modified τ :
  diff options fuel h original modified = Done τ ->
  noEmptyButPull (changes τ).
Proof.
  intros Hrun.
  assert (Hinv : ends (fun σ => noEmptyButPull (changes σ)) True
                   (diff options fuel h original modified)).
  { apply diff_ends; unfold noEmptyButPull.
    - intros path v σ (? & ? & ? & ? & ?). simpl.
      repeat split; try done. intros [= E]. by apply insert_non_empty in E.
    - intros path σ (? & ? & ? & ? & ?). simpl.
      repeat split; try done. intros [= E]. by apply insert_non_empty in E.
    - intros _ path delta σ (? & ? & ? & ? & ?). simpl.
      repeat split; try done. intros [= E]. by apply insert_non_empty in E.
    - intros path v σ (? & ? & ? & ? & Hall). simpl.
      destruct (pull_others path v (changes σ)) as (-> & -> & ->).
      rewrite pull_unset. repeat split; try done.
      unfold Omnom.pull. repeat case_match; simpl; try done;
        intros [= E]; by apply insert_non_empty in E.
    - intros path v σ (? & ? & ? & Hpush & ?).
      destruct (push path v σ) as [υ| |] eqn:Hp; simpl; [|done..].
      destruct (push_others _ _ _ _ Hp) as (-> & -> & -> & _ & ->).
      repeat split; try done.
      unfold push in Hp. repeat case_match; simplify_eq; simpl;
        intros [= E]; try (by apply insert_non_empty in E).
      rewrite E, lookup_empty in *. discriminate.
    - simpl. by repeat split. }
  by rewrite Hrun in Hinv.
Qed.

Lemma diff_operators_are_inhabited_witness :
  noEmptyButPull
    (changes {| heap := threeRemoved;
                changes := withPull (Some ∅)
                             (withPullAll
                                (Some {[ "a" := [VNumber 1; VNumber 2; VNumber 3] ]})
                                noChanges) |}).
Proof.
  apply (diff_operators_are_inhabited defaults 3 threeRemoved (VObject 1) (VObject 2)).
  vm_compute. reflexivity.
Defined.

(** The [$push] entries after a [push] that returns. *)
Lemma push_pushOf path v σ τ :
  push path v σ = Done τ ->
  forall q,
    pushOf (changes τ) q
    = if decide (q = propertyKey path)
      then match pushOf (changes σ) (propertyKey path) with
           | Some (Each vs) => Some (Each (vs ++ [v]))
           | Some (Single previous) =>
             if truthy previous
             then if truthy (getProperty (heap σ) previous "$each")
                  then Some (Single previous)
                  else Some (Each [previous; v])
             else Some (Single v)
           | None => Some (Single v)
           end
      else pushOf (changes σ) q.
Proof.
  unfold push, pushOf. rewrite lookup_default. intros Hp q.
  destruct (c_push (changes σ) ≫= _) as [[previous|vs]|] eqn:Hkey.
  - destruct (truthy previous).
    + destruct (truthy (getProperty _ _ _)).
      * assert (Hτ : c_push (changes τ) = Some (default ∅ (c_push (changes σ))))
          by (repeat case_match; by simplify_eq).
        rewrite Hτ. simpl. rewrite lookup_default.
        destruct (decide (q = propertyKey path)) as [->|]; done.
      * injection Hp as <-. apply lookup_insert_default.
    + injection Hp as <-. apply lookup_insert_default.
  - injection Hp as <-. apply lookup_insert_default.
  - injection Hp as <-. apply lookup_insert_default.
Qed.

(** X5: in a change set made by [diff] every [$each] wrapper the builder
    allocated holds at least two values. *)
Theorem diff_batches_hold_two `{Runtime} options fuel h original modified τ q vs :
  diff options fuel h original modified = Done τ ->
  pushOf (changes τ) q = Some (Each vs) -> (2 <= length vs)%nat.
Proof.
  intros Hrun.
  assert (Hinv : ends (fun σ => batchesOfTwo (changes σ)) True
                   (diff options fuel h original modified)).
  { apply diff_ends; try done.
    - intros path v σ Hσ q' vs'. unfold pushOf. simpl.
      rewrite (proj2 (proj2 (pull_others path v _))). apply Hσ.
    - intros path v σ Hσ.
      destruct (push path v σ) as [υ| |] eqn:Hp; simpl; [|done..].
      intros q' vs'. rewrite (push_pushOf _ _ _ _ Hp).
      destruct (decide (q' = propertyKey path)) as [->|]; [|apply Hσ].
      destruct (pushOf (changes σ) (propertyKey path)) as [[previous|vs0]|] eqn:Hkey.
      + repeat case_match; intros [= <-]; simpl; lia.
      + intros [= <-]. apply Hσ in Hkey. rewrite length_app. lia.
      + done. }
  rewrite Hrun in Hinv. apply Hinv.
Qed.

Lemma diff_batches_hold_two_witness :
  exists τ,
    diff defaults 5 twoAppended (VObject 1) (VObject 2) = Done τ
    /\ pushOf (changes τ) "tags" = Some (Each [VString "b"; VString "c"])
    /\ (2 <= length [VString "b"; VString "c"])%nat.
Proof.
  eexists. split; [vm_compute; reflexivity|]. split; [reflexivity|].
  apply (diff_batches_hold_two defaults 5 twoAppended (VObject 1) (VObject 2)
           {| heap := twoAppended;
              changes := withPush (Some {[ "tags" := Each [VString "b"; VString "c"] ]})
                           noChanges |} "tags").
  - vm_compute. reflexivity.
  - reflexivity.
Defined.

(** X6: in a change set made by [diff] every [$unset] entry has the
    operand [1]. *)
Theorem diff_unsets_with_one `{Runtime} options fuel h original modified τ q z :
  diff options fuel h original modified = Done τ ->
  unsetOf (changes τ) q = Some z -> z = 1.
Proof.
  intros Hrun.
  assert (Hinv : ends (fun σ => unsetOnes (changes σ)) True
                   (diff options fuel h original modified)).
  { apply diff_ends; try done.
    - intros path σ Hσ q' z'. unfold unsetOf, Omnom.unset. cbn [changes c_unset withUnset].
      rewrite lookup_insert_default.
      destruct (decide (q' = propertyKey path)); [congruence|apply Hσ].
    - intros path v σ Hσ q' z'. unfold unsetOf. simpl. rewrite pull_unset. apply Hσ.
    - intros path v σ Hσ.
      destruct (push path v σ) as [υ| |] eqn:Hp; simpl; [|done..].
      apply push_others in Hp as (_ & Hu & _). intros q' z'.
      unfold unsetOf. rewrite Hu. apply Hσ. }
  rewrite Hrun in Hinv. apply Hinv.
Qed.

Lemma diff_unsets_with_one_witness :
  exists τ,
    diff defaults 2 nulled (VObject 1) (VObject 2) = Done τ
    /\ unsetOf (changes τ) "a" = Some 1 /\ 1 = 1.
Proof.
  eexists. split; [vm_compute; reflexivity|]. split; [reflexivity|].
  apply (diff_unsets_with_one defaults 2 nulled (VObject 1) (VObject 2)
           {| heap := nulled;
              changes := withUnset (Some {[ "a" := 1 ]})
                           (withSet (Some {[ "a" := VNull ]}) noChanges) |} "a" 1).
  - vm_compute. reflexivity.
  - reflexivity.
Defined.

(** ** Removing elements *)





(** The walk of the removal strategy: what it collects is a sub-list of
    [original], and every element of [original] is either matched or
    collected. *)
Lemma collectPulls_sublist `{Runtime} h fuel modified :
  forall original j pulls j' pulls',
    collectPulls h fuel original modified j pulls = Some (j', pulls') ->
    (j <= length modified)%nat ->
    exists more,
      pulls' = pulls ++ more /\ more `sublist_of` original /\
      (j' + length more = j + length original)%nat /\ (j' <= length modified)%nat.
Proof.
  induction original as [|o rest IH]; intros j pulls j' pulls' Hc Hj; simpl in Hc.
  - injection Hc as <- <-. exists []. rewrite app_nil_r.
    repeat split; first [done | lia].
  - destruct (j <? length modified)%nat eqn:Hlt.
    + apply Nat.ltb_lt in Hlt.
      destruct (almostEqual h fuel o (getIndex modified j)) as [s|]; [|done].
      destruct (nonZero s).
      * apply IH in Hc as (more & -> & Hsub & Hlen & Hj'); [|lia].
        exists more. repeat split; try done; [by apply sublist_cons|simpl; lia].
      * apply IH in Hc as (more & -> & Hsub & Hlen & Hj'); [|lia].
        exists (o :: more). rewrite <- app_assoc. repeat split; try done.
        -- by apply sublist_skip.
        -- simpl. lia.
    + injection Hc as <- <-. exists (o :: rest). repeat split; try done.
Qed.

(** X9: when [modified] is shorter than [original], [onArray] leaves the
    store alone and either sets the whole array or pulls, at the path of the
    array, a sub-list of the elements of [original] that is as long as the
    difference of the two lengths, in the order of [original]. *)
Theorem shrinking_sets_or_pulls `{Runtime} options fuel original modified changePath σ τ :
  let o := elements (heap σ) original in
  let m := elements (heap σ) modified in
  (length m < length o)%nat ->
  onArray options fuel original modified changePath σ = Done τ ->
  heap τ = heap σ /\
  (changes τ = Omnom.set changePath modified (changes σ) \/
   exists pulls,
     pulls `sublist_of` o /\ length pulls = (length o - length m)%nat /\
     changes τ = foldl (fun c v => Omnom.pull changePath v c) (changes σ) pulls).
Proof.
  intros o m Hlen Hrun. destruct fuel as [|fuel]; [done|].
  rewrite onArray_step in Hrun. cbv zeta in Hrun. fold o m in Hrun.
  apply Nat.ltb_lt in Hlen as Hlt. rewrite Hlt in Hrun.
  destruct (collectPulls _ _ _ _ _ _) as [[j pulls]|] eqn:Hc; simpl in Hrun; [|done].
  destruct (Nat.eqb j (length m)) eqn:Hj.
  - apply Nat.eqb_eq in Hj.
    apply collectPulls_sublist in Hc as (more & -> & Hsub & Hcount & _); [|lia].
    simpl in Hrun.
    assert (Hloop : forEach (fun pull => record (Omnom.pull changePath pull)) more σ
                    = Done τ)
      by (by destruct more as [|pull [|pull' more]]).
    rewrite forEach_record in Hloop. injection Hloop as <-. split; [done|].
    right. exists more. repeat split; [done|lia].
  - injection Hrun as <-. split; [done|]. by left.
Qed.

Lemma shrinking_sets_or_pulls_witness :
  heap {| heap := repeatedElement;
          changes := withPull (Some {[ "a" := VNumber 1 ]}) noChanges |}
  = repeatedElement /\
  (changes {| heap := repeatedElement;
              changes := withPull (Some {[ "a" := VNumber 1 ]}) noChanges |}
   = Omnom.set (Some "a") (VObject 4) noChanges \/
   exists pulls,
     pulls `sublist_of` [VNumber 1; VNumber 1; VNumber 2] /\
     length pulls = (3 - 2)%nat /\
     changes {| heap := repeatedElement;
                changes := withPull (Some {[ "a" := VNumber 1 ]}) noChanges |}
     = foldl (fun c v => Omnom.pull (Some "a") v c) noChanges pulls).
Proof.
  apply (shrinking_sets_or_pulls defaults 2 (VObject 3) (VObject 4) (Some "a")
           {| heap := repeatedElement; changes := noChanges |}).
  - vm_compute. lia.
  - vm_compute. reflexivity.
Defined.

(** ** The rules of [onObject] *)










(** ** Paths *)

Lemma join_snoc ks k : ks <> [] -> join (ks ++ [k]) = join ks +:+ "." +:+ k.
Proof.
  induction ks as [|x [|y ks] IH]; intros Hne; [done|done|].
  change (x +:+ "." +:+ join ((y :: ks) ++ [k])
          = (x +:+ "." +:+ join (y :: ks)) +:+ "." +:+ k).
  rewrite IH by done. by rewrite !append_assoc.
Qed.

Lemma join_nonempty ks : ks <> [] -> Forall (fun k => k <> "") ks -> join ks <> "".
Proof.
  destruct ks as [|x [|y ks]]; intros Hne Hks; [done|..];
    apply Forall_cons in Hks as [Hx _]; [done|].
  change (x +:+ "." +:+ join (y :: ks) <> ""). intros E.
  by apply append_nil_inv in E as [? _].
Qed.

(** X13: descending from the root through non-empty property names,
    [resolve] builds the names joined by dots. *)
Theorem descent_joins_the_keys ks :
  ks <> [] -> Forall (fun k => k <> "") ks -> pathFrom None ks = Some (join ks).
Proof.
  induction ks as [|k ks IH] using rev_ind; intros Hne Hks; [done|].
  apply Forall_app in Hks as [Hks Hk]. apply Forall_cons in Hk as [Hk _].
  unfold pathFrom in *. rewrite foldl_app. simpl. f_equal.
  destruct ks as [|x ks]; [by apply resolve_root|].
  rewrite IH by done. rewrite resolve_below by (done || by apply join_nonempty).
  by rewrite join_snoc.
Qed.

Lemma descent_joins_the_keys_witness :
  pathFrom None ["address"; "city"] = Some (join ["address"; "city"]).
Proof.
  apply (descent_joins_the_keys ["address"; "city"]); [done|].
  by repeat constructor.
Defined.

(** X14: under one parent path, a non-empty property name resolves to a
    non-empty path, and two such names resolve to the same path only when
    they are the same name. *)
Theorem sibling_paths_differ changePath k k' :
  k <> "" -> k' <> "" ->
  resolve changePath k <> "" /\
  (resolve changePath k = resolve changePath k' -> k = k').
Proof.
  intros Hk Hk'. split; [by apply resolve_nonempty | by apply resolve_inj].
Qed.

Lemma sibling_paths_differ_witness :
  resolve (Some "address") "city" <> "" /\
  (resolve (Some "address") "city" = resolve (Some "address") "street" ->
   "city" = "street").
Proof. apply (sibling_paths_differ (Some "address") "city" "street"); done. Defined.

(** X15: a property whose name is the empty string resolves to the path of
    its parent, the empty argument being dropped as falsy. *)
Theorem empty_key_resolves_to_parent changePath :
  resolve changePath "" = default "" changePath.
Proof.
  unfold resolve. destruct changePath as [p|]; simpl.
  - destruct (decide (p = "")) as [->|Hp].
    + by rewrite !filter_cons_False by auto.
    + rewrite filter_cons_True by done. by rewrite filter_cons_False by auto.
  - done.
Qed.

(** ** Similarity scores: symmetry *)

Lemma looseEq_sym `{Runtime} h x y : looseEq h x y = looseEq h y x.
Proof.
  destruct x as [| |a|a|a|a], y as [| |b|b|b|b]; simpl; try done;
    try apply Z.eqb_sym; try apply String.eqb_sym.
  apply bool_decide_ext. split; congruence.
Qed.

Lemma countChanges_ext score score' ks acc :
  (forall k, score k = score' k) ->
  countChanges score ks acc = countChanges score' ks acc.
Proof.
  intros Hs. revert acc. induction ks as [|k ks IH]; intros acc; simpl; [done|].
  rewrite <- Hs. by destruct (score k).
Qed.

Lemma countChanges_Permutation score ks ks' :
  ks ≡ₚ ks' -> forall acc, countChanges score ks acc = countChanges score ks' acc.
Proof.
  induction 1 as [|k ks ks' _ IH|k k' ks|ks1 ks2 ks3 _ IH1 _ IH2]; intros acc; simpl.
  - done.
  - by destruct (score k).
  - destruct (score k) as [s|], (score k') as [s'|]; try done.
    by destruct (belowOne s), (belowOne s').
  - by rewrite IH1.
Qed.

Lemma common_Permutation f1 f2 :
  NoDup (keys f1) -> NoDup (keys f2) -> common f1 f2 ≡ₚ common f2 f1.
Proof.
  intros H1 H2. unfold common.
  apply NoDup_Permutation; try by apply NoDup_filter.
  intros k. rewrite !list_elem_of_filter. tauto.
Qed.

Lemma plainFields_distinct h v fs :
  distinctKeys h -> plainFields h v = Some fs -> NoDup (keys fs).
Proof.
  intros Hd Hv. destruct v as [| | | | |l]; try discriminate. simpl in Hv.
  destruct (h !! l) as [[]|] eqn:Hl; try discriminate.
  injection Hv as <-. by apply (Hd l).
Qed.

(** X16: the similarity score does not depend on the order of its two
    arguments, the property names of every plain object being pairwise
    different; the fuel runs out for both orders or for neither. *)
Theorem almostEqual_is_symmetric `{Runtime} h fuel a b :
  distinctKeys h -> almostEqual h fuel a b = almostEqual h fuel b a.
Proof.
  intros Hd. revert a b. induction fuel as [|fuel IH]; intros a b.
  - simpl. destruct (plainFields h a), (plainFields h b); try done;
      by rewrite looseEq_sym.
  - destruct (plainFields h a) as [f1|] eqn:Ha.
    2:{ rewrite !almostEqual_primitive by auto. by rewrite looseEq_sym. }
    destruct (plainFields h b) as [f2|] eqn:Hb.
    2:{ rewrite !almostEqual_primitive by auto. by rewrite looseEq_sym. }
    rewrite (almostEqual_plain _ _ _ _ _ _ Ha Hb), (almostEqual_plain _ _ _ _ _ _ Hb Ha).
    pose proof (common_Permutation f1 f2 (plainFields_distinct _ _ _ Hd Ha)
                  (plainFields_distinct _ _ _ Hd Hb)) as Hp.
    rewrite (countChanges_Permutation _ _ _ Hp).
    rewrite (countChanges_ext _ (fun k => almostEqual h fuel (getField f2 k) (getField f1 k)))
      by (intros; apply IH).
    rewrite (Permutation_length Hp), (Nat.add_comm (length (keys f1))). done.
Qed.

Lemma unlikeRecords_distinct : distinctKeys unlikeRecords.
Proof.
  intros l fs Hl. unfold unlikeRecords in Hl. apply elem_of_list_to_map_2 in Hl.
  repeat (apply elem_of_cons in Hl as [Hl|Hl];
          [simplify_eq; apply (bool_decide_unpack _); vm_compute; exact I|]).
  by apply elem_of_nil in Hl.
Qed.

Lemma almostEqual_is_symmetric_witness :
  almostEqual unlikeRecords 1 (VObject 1) (VObject 2)
  = almostEqual unlikeRecords 1 (VObject 2) (VObject 1).
Proof.
  apply (almostEqual_is_symmetric unlikeRecords 1 (VObject 1) (VObject 2)).
  exact unlikeRecords_distinct.
Defined.

(** ** Similarity scores: a value and itself *)



(** ** Appending elements *)



Section Appended.
Context `{Runtime}.
Variable options : Options.





End Appended.




(** ** Positional reconciliation: the minority case *)

Section Minority.
Context `{Runtime}.
Variable options : Options.


(** X22: two arrays of the same length whose elements are pairwise loosely
    equal ([==]), one element of each pair at least not being a plain
    object, are taken for unchanged: [onArray] records nothing, also where
    the two elements differ in type. *)
Theorem loosely_equal_elements_are_kept fuel original modified changePath σ :
  let o := elements (heap σ) original in
  let m := elements (heap σ) modified in
  length o = length m ->
  (forall i, (i < length m)%nat ->
     (plainFields (heap σ) (getIndex o i) = None
      \/ plainFields (heap σ) (getIndex m i) = None)
     /\ looseEq (heap σ) (getIndex o i) (getIndex m i) = true) ->
  onArray options (S fuel) original modified changePath σ = Done σ.
Proof.
  intros o m Hlen Heq. rewrite onArray_step. cbv zeta. fold o m.
  rewrite Hlen, Nat.ltb_irrefl. cbn [mbind outcome_bind].
  rewrite (classify_scores _ _ _ _ (fun _ => one)).
  2:{ intros i Hi. apply elem_of_seq in Hi. destruct (Heq i ltac:(lia)) as [Hp He].
      rewrite almostEqual_primitive by done. by rewrite He. }
  rewrite !filter_none by (intros i _; simpl; tauto).
  cbn [need mbind outcome_bind app length]. by destruct (_ <? _)%nat eqn:E.
Qed.

End Minority.


Lemma loosely_equal_elements_are_kept_witness :
  onArray defaults 1 (VObject 1) (VObject 2) (Some "a")
    {| heap := looselyEqual; changes := noChanges |}
  = Done {| heap := looselyEqual; changes := noChanges |}.
Proof.
  apply (loosely_equal_elements_are_kept defaults 0 (VObject 1) (VObject 2) (Some "a")
           {| heap := looselyEqual; changes := noChanges |}).
  - reflexivity.
  - intros [|[|[|i]]] Hi; [by split; [left|] | by split; [left|] | by split; [left|] |].
    vm_compute in Hi. lia.
Defined.

(** ** Fuel that suffices *)




Section Returning.
Context `{Runtime}.
Variable options : Options.








End Returning.



(** ** Where a visit writes *)

Lemma within_refl p σ : simpleKeys (heap σ) -> within p σ σ.
Proof. by split. Qed.

Lemma within_trans p σ τ υ : within p σ τ -> within p τ υ -> within p σ υ.
Proof.
  intros [_ H1] [Hk H2]. split; [done|]. intros q Hq. by rewrite H2, H1.
Qed.

Lemma atOrBelow_deeper p k q : atOrBelow (p +:+ "." +:+ k) q -> atOrBelow p q.
Proof.
  intros [->|[rest ->]]; right.
  - exists k. by rewrite append_assoc.
  - exists (k +:+ "." +:+ rest). by rewrite !append_assoc.
Qed.

Lemma within_deeper p k σ τ : within (p +:+ "." +:+ k) σ τ -> within p σ τ.
Proof.
  intros [Hk Hw]. split; [done|]. intros q Hq. apply Hw.
  intros Hq'. by apply Hq, (atOrBelow_deeper p k).
Qed.

Lemma record_within f p σ τ :
  (forall c q, q <> p -> entriesAt (f c) q = entriesAt c q) ->
  simpleKeys (heap σ) -> record f σ = Done τ -> within p σ τ.
Proof.
  intros Hf Hk [= <-]. split; [done|]. intros q Hq. simpl. apply Hf.
  intros ->. apply Hq. by left.
Qed.

Lemma set_elsewhere p v c q :
  q <> p -> entriesAt (Omnom.set (Some p) v c) q = entriesAt c q.
Proof.
  intros Hq. unfold entriesAt, setOf, Omnom.set. cbn [c_set withSet].
  rewrite lookup_insert_default. by rewrite decide_False.
Qed.

Lemma unset_elsewhere p c q :
  q <> p -> entriesAt (Omnom.unset (Some p) c) q = entriesAt c q.
Proof.
  intros Hq. unfold entriesAt, unsetOf, Omnom.unset. cbn [c_unset withUnset].
  rewrite lookup_insert_default. by rewrite decide_False.
Qed.

Lemma inc_elsewhere p delta c q :
  q <> p -> entriesAt (Omnom.inc (Some p) delta c) q = entriesAt c q.
Proof.
  intros Hq. unfold entriesAt, incOf, Omnom.inc. cbn [c_inc withInc].
  rewrite lookup_insert_default. by rewrite decide_False.
Qed.

Lemma pull_elsewhere p v c q :
  q <> p -> entriesAt (Omnom.pull (Some p) v c) q = entriesAt c q.
Proof.
  intros Hq. unfold entriesAt, setOf, unsetOf, incOf, pushOf.
  destruct (pull_others (Some p) v c) as (-> & -> & ->). rewrite pull_unset.
  assert (Hpulls : pullOf (Omnom.pull (Some p) v c) q = pullOf c q
                   /\ pullAllOf (Omnom.pull (Some p) v c) q = pullAllOf c q).
  { destruct (pullAllOf c (propertyKey (Some p))) as [values|] eqn:Hall.
    { destruct (pull_appends (Some p) v c values Hall q) as [-> ->].
      by rewrite decide_False. }
    destruct (pullOf c (propertyKey (Some p))) as [previous|] eqn:Hone.
    - destruct (truthy previous) eqn:Ht.
      + destruct (pull_pairs (Some p) v c previous Hall Hone Ht q) as [-> ->].
        by rewrite !decide_False.
      + rewrite pull_single by (done || congruence).
        unfold pullOf, pullAllOf. cbn [c_pull c_pullAll withPull].
        rewrite lookup_insert_default. by rewrite decide_False.
    - rewrite pull_single by (done || congruence).
      unfold pullOf, pullAllOf. cbn [c_pull c_pullAll withPull].
      rewrite lookup_insert_default. by rewrite decide_False. }
  destruct Hpulls as [-> ->]. done.
Qed.

Lemma push_within p v σ τ :
  simpleKeys (heap σ) -> push (Some p) v σ = Done τ -> within p σ τ.
Proof.
  intros Hk Hp. split; [by apply (push_sameUnsets _ _ _ _ Hk Hp)|].
  intros q Hq. unfold entriesAt, setOf, unsetOf, incOf, pullOf, pullAllOf.
  destruct (push_others _ _ _ _ Hp) as (-> & -> & -> & -> & ->).
  rewrite (push_pushOf _ _ _ _ Hp), decide_False; [done|].
  intros ->. apply Hq. by left.
Qed.

Lemma pushLoop_within fuel modified p : forall i σ τ,
  simpleKeys (heap σ) -> pushLoop fuel modified (Some p) i σ = Done τ ->
  within p σ τ.
Proof.
  induction fuel as [|fuel IH]; intros i σ τ Hk Hp; simpl in Hp; [done|].
  destruct (_ <? _)%nat; [|injection Hp as <-; by apply within_refl].
  destruct (push (Some p) _ σ) as [σ1| |] eqn:Hpush; try done. simpl in Hp.
  pose proof (push_within _ _ _ _ Hk Hpush) as H1.
  eapply within_trans; [exact H1|]. eapply IH; [apply H1|done].
Qed.

Lemma forEach_within {A : Type} (body : A -> state -> outcome state) p l : forall σ τ,
  (forall x υ υ', x ∈ l -> simpleKeys (heap υ) -> body x υ = Done υ' -> within p υ υ') ->
  simpleKeys (heap σ) -> forEach body l σ = Done τ -> within p σ τ.
Proof.
  induction l as [|x l IH]; intros σ τ Hb Hk Hrun; simpl in Hrun.
  - injection Hrun as <-. by apply within_refl.
  - destruct (body x σ) as [σ1| |] eqn:Hx; try done. simpl in Hrun.
    assert (H1 : within p σ σ1) by (eapply Hb; [left|done|done]).
    eapply within_trans; [exact H1|].
    eapply IH; [|apply H1|done]. intros; eapply Hb; [by right|done..].
Qed.

Section Locality.
Context `{Runtime}.
Variable options : Options.

(** A visit at a non-empty path [p] changes entries at [p] and below [p]
    only. *)
Lemma visits_within fuel :
  (forall original modified p σ τ,
     p <> "" -> simpleKeys (heap σ) ->
     onObject options fuel original modified (Some p) σ = Done τ -> within p σ τ)
  /\
  (forall original modified p σ τ,
     p <> "" -> simpleKeys (heap σ) ->
     onArray options fuel original modified (Some p) σ = Done τ -> within p σ τ).
Proof.
  induction fuel as [|fuel [IHo IHa]]; [split; intros; discriminate|].
  assert (Hset : forall v σ τ p, record (Omnom.set (Some p) v) σ = Done τ ->
            simpleKeys (heap σ) -> within p σ τ).
  { intros v σ τ p Hr Hk. eapply record_within; [|done|exact Hr].
    intros c q. apply set_elsewhere. }
  assert (Hbelow : forall p k, p <> "" -> p +:+ "." +:+ k <> "").
  { intros p k Hp E. by apply append_nil_inv in E as [? _]. }
  split; intros original modified p σ τ Hp Hk Hrun.
  - rewrite onObject_step in Hrun.
    destruct (nullish original).
    { destruct (strictEq original modified); [|by eapply Hset].
      injection Hrun as <-. by apply within_refl. }
    destruct (changedNumber original modified).
    { destruct (atomicNumbers options); [|by eapply Hset].
      eapply record_within; [|done|exact Hrun]. intros c q. apply inc_elsewhere. }
    destruct (isArray (heap σ) original && isArray (heap σ) modified).
    { by eapply IHa. }
    assert (Hfallback :
      (equal ← need (isEqual (heap σ) fuel original modified);
       if equal : bool then Done σ
       else record (Omnom.set (Some p) modified) σ) = Done τ -> within p σ τ).
    { destruct (isEqual _ _ _ _) as [[]|]; simpl; intros Hr; try done.
      - injection Hr as <-. by apply within_refl.
      - by eapply Hset. }
    assert (Hplain :
      match plainFields (heap σ) original, plainFields (heap σ) modified with
      | Some fo, Some fm =>
        σ ← forEach (fun key σ =>
               if isArray (heap σ) (getField fm key)
                  && isArray (heap σ) (getField fo key)
               then onArray options fuel (getField fo key) (getField fm key)
                      (Some (resolve (Some p) key)) σ
               else onObject options fuel (getField fo key) (getField fm key)
                      (Some (resolve (Some p) key)) σ)
             (keys fm) σ;
        forEach (fun key σ =>
            if nullish (getField fm key)
            then record (Omnom.unset (Some (resolve (Some p) key))) σ
            else Done σ)
          (keys fo) σ
      | _, _ =>
        equal ← need (isEqual (heap σ) fuel original modified);
        if equal : bool then Done σ
        else record (Omnom.set (Some p) modified) σ
      end = Done τ -> within p σ τ).
    { destruct (plainFields (heap σ) original) as [fo|] eqn:Ho; [|done].
      destruct (plainFields (heap σ) modified) as [fm|] eqn:Hm; [|done].
      pose proof (plainFields_keys _ _ _ Hk Ho) as Hko.
      pose proof (plainFields_keys _ _ _ Hk Hm) as Hkm.
      rewrite Forall_forall in Hko, Hkm.
      destruct (forEach _ (keys fm) σ) as [σ1| |] eqn:Hloop; try done.
      simpl. intros Hloop2.
      assert (H1 : within p σ σ1).
      { eapply forEach_within; [|done|exact Hloop].
        intros key υ υ' Hkey Hkυ Hb. simpl in Hb.
        rewrite resolve_below in Hb by auto.
        apply (within_deeper p key).
        destruct (_ && _); [eapply IHa | eapply IHo]; eauto. }
      eapply within_trans; [exact H1|].
      eapply forEach_within; [|apply H1|exact Hloop2].
      intros key υ υ' Hkey Hkυ Hb. simpl in Hb.
      destruct (nullish (getField fm key)).
      - rewrite resolve_below in Hb by auto. apply (within_deeper p key).
        eapply record_within; [|done|exact Hb]. intros c q. apply unset_elsewhere.
      - injection Hb as <-. by apply within_refl. }
    destruct (objectId (heap σ) original), (objectId (heap σ) modified);
      try (by apply Hplain).
    destruct (String.eqb _ _); [|by eapply Hset].
    injection Hrun as <-. by apply within_refl.
  - rewrite onArray_step in Hrun. cbv zeta in Hrun.
    destruct (_ <? _)%nat.
    { destruct (collectPulls _ _ _ _ _ _) as [[j pulls]|]; simpl in Hrun; [|done].
      destruct (Nat.eqb _ _); [|by eapply Hset].
      assert (Hpulls : forEach (fun pull => record (Omnom.pull (Some p) pull)) pulls σ
                       = Done τ -> within p σ τ).
      { intros Hr. eapply forEach_within; [|done|exact Hr].
        intros x υ υ' _ Hkυ Hb. eapply record_within; [|done|exact Hb].
        intros c q. apply pull_elsewhere. }
      destruct pulls as [|pull [|pull' pulls]]; by apply Hpulls. }
    assert (Hrest :
      ('(sets, partials) ← need (classify (heap σ) fuel (elements (heap σ) original)
                                   (elements (heap σ) modified)
                                   (seq 0 (length (elements (heap σ) modified))) [] []);
       if (length (elements (heap σ) modified) <? 2 * length sets)%nat
       then record (Omnom.set (Some p) modified) σ
       else
         σ ← forEach (fun i =>
                record (Omnom.set (Some (resolve (Some p) (indexName i)))
                          (getIndex (elements (heap σ) modified) i)))
              sets σ;
         forEach (fun i σ =>
             onObject options fuel
               (getIndex (elements (heap σ) original) i)
               (getIndex (elements (heap σ) modified) i)
               (Some (resolve (Some p) (indexName i))) σ)
           partials σ) = Done τ -> within p σ τ).
    { clear Hrun.
      destruct (classify _ _ _ _ _ _ _) as [[sets partials]|]; simpl; [|done].
      destruct (_ <? _)%nat; [intros Hr; by eapply Hset|].
      destruct (forEach _ sets σ) as [σ1| |] eqn:Hsets; try done. simpl. intros Hparts.
      assert (H1 : within p σ σ1).
      { eapply forEach_within; [|done|exact Hsets].
        intros i υ υ' _ Hkυ Hb. cbv beta in Hb. pose proof (indexName_nonempty i).
        rewrite resolve_below in Hb by auto. apply (within_deeper p (indexName i)).
        by eapply Hset. }
      eapply within_trans; [exact H1|].
      eapply forEach_within; [|apply H1|exact Hparts].
      intros i υ υ' _ Hkυ Hb. simpl in Hb. pose proof (indexName_nonempty i).
      rewrite resolve_below in Hb by auto.
      apply (within_deeper p (indexName i)). eapply IHo; eauto. }
    destruct (_ <? _)%nat; [|by apply Hrest].
    destruct (canPush _ _ _ _ _) as [[]|]; simpl in Hrun; [|by apply Hrest|done].
    by eapply pushLoop_within.
Qed.

(** X24: a visit of [onObject] at a non-empty path, property names being
    non-empty throughout the store, leaves the entries of all six operators
    as they were at every path that is neither the path of the visit nor
    below it. *)
Theorem visit_is_local fuel original modified p σ τ q :
  p <> "" -> simpleKeys (heap σ) ->
  onObject options fuel original modified (Some p) σ = Done τ ->
  q <> p -> ~ startsWith (p +:+ ".") q ->
  entriesAt (changes τ) q = entriesAt (changes σ) q.
Proof.
  intros Hp Hk Hrun Hq Hbelow.
  destruct (proj1 (visits_within fuel) _ _ _ _ _ Hp Hk Hrun) as [_ Hw].
  apply Hw. by intros [|].
Qed.

End Locality.

Lemma birthday_has_simple_keys : simpleKeys birthday.
Proof.
  intros l fs Hl. unfold birthday in Hl. apply elem_of_list_to_map_2 in Hl.
  repeat (apply elem_of_cons in Hl as [Hl|Hl];
          [injection Hl as -> ->; by repeat constructor|]).
  by apply elem_of_nil in Hl.
Qed.

Lemma visit_is_local_witness :
  entriesAt
    (changes {| heap := birthday;
                changes := Omnom.set (Some "person.age") (VNumber 31)
                             (Omnom.unset (Some "other") noChanges) |})
    "other"
  = entriesAt
      (changes {| heap := birthday; changes := Omnom.unset (Some "other") noChanges |})
      "other".
Proof.
  apply (visit_is_local defaults 2 (VObject 1) (VObject 2) "person"
           {| heap := birthday; changes := Omnom.unset (Some "other") noChanges |}).
  - done.
  - exact birthday_has_simple_keys.
  - vm_compute. reflexivity.
  - done.
  - intros [rest E]. cbv in E. discriminate.
Defined.

Section Added.
Context `{Runtime}.
Variable options : Options.


End Added.


(** ** The collection helpers of an instance *)

Section Collections.
Variable predicate : value -> Instance.position -> bool.

Lemma assign_fresh fields key v :
  key ∉ keys fields -> Instance.assign fields key v = fields ++ [(key, v)].
Proof.
  induction fields as [|[k x] fields IH]; intros Hfresh; simpl; [done|].
  apply not_elem_of_cons in Hfresh as [Hne Hfresh]. simpl in Hne.
  destruct (String.eqb k key) eqn:E; [apply String.eqb_eq in E; congruence|].
  by rewrite IH.
Qed.

Lemma select_elements : forall visits results,
  foldl (Instance.keep predicate) (Instance.Elements results) visits
  = Instance.Elements
      (results ++ map fst (filter (Instance.accepted predicate) visits)).
Proof.
  induction visits as [|[x k] visits IH]; intros results; simpl.
  - by rewrite app_nil_r.
  - unfold Instance.keep at 2. simpl. destruct (predicate x k) eqn:E.
    + rewrite filter_cons_True by (apply Is_true_true; exact E).
      rewrite IH, <- app_assoc. done.
    + rewrite filter_cons_False by (apply Is_true_false; exact E).
      apply IH.
Qed.

Lemma select_properties : forall fields results,
  NoDup (keys fields) ->
  (forall key, key ∈ keys fields -> key ∉ keys results) ->
  foldl (Instance.keep predicate) (Instance.Properties results)
        (map (fun kv => (kv.2, Instance.Name kv.1)) fields)
  = Instance.Properties
      (results ++ filter (fun kv => predicate kv.2 (Instance.Name kv.1)) fields).
Proof.
  induction fields as [|[k x] fields IH]; intros results Hnd Hfresh; simpl.
  - by rewrite app_nil_r.
  - apply NoDup_cons in Hnd as [Hk Hnd].
    unfold Instance.keep at 2. simpl.
    destruct (predicate x (Instance.Name k)) eqn:E.
    + rewrite filter_cons_True by (apply Is_true_true; exact E).
      rewrite assign_fresh by (apply Hfresh; left).
      rewrite IH, <- app_assoc; [done|done|].
      intros key Hkey. unfold keys. rewrite map_app, elem_of_app. simpl.
      intros [Hin|Hin].
      * revert Hin. apply Hfresh. by right.
      * apply list_elem_of_singleton in Hin as ->. done.
    + rewrite filter_cons_False by (apply Is_true_false; exact E).
      apply IH; [done|]. intros key Hkey. apply Hfresh. by right.
Qed.

Lemma filter_visits fields :
  map fst (filter (Instance.accepted predicate)
             (map (fun kv : string * value => (kv.2, Instance.Name kv.1)) fields))
  = map snd (filter (fun kv => predicate kv.2 (Instance.Name kv.1)) fields).
Proof.
  induction fields as [|[k x] fields IH]; simpl; [done|].
  destruct (predicate x (Instance.Name k)) eqn:E.
  - rewrite !filter_cons_True
      by (apply Is_true_true; exact E).
    simpl. by rewrite IH.
  - rewrite !filter_cons_False
      by (apply Is_true_false; exact E).
    done.
Qed.

Lemma search_head : forall visits result,
  Instance.search predicate visits result
  = default result (head (map fst (filter (Instance.accepted predicate) visits))).
Proof.
  induction visits as [|[x k] visits IH]; intros result; simpl; [done|].
  destruct (predicate x k) eqn:E.
  - by rewrite filter_cons_True by (apply Is_true_true; exact E).
  - rewrite filter_cons_False by (apply Is_true_false; exact E).
    apply IH.
Qed.

Lemma select_values c :
  Instance.distinct c ->
  Instance.values (Instance.select predicate c)
  = map fst (filter (Instance.accepted predicate) (Instance.visits c)).
Proof.
  intros Hd. unfold Instance.select. destruct c as [items|fields]; simpl.
  - by rewrite select_elements.
  - rewrite select_properties; [|done|intros key _; apply not_elem_of_nil].
    simpl. by rewrite filter_visits.
Qed.




(** X28: [first] is the first of the values [select] holds, and [null]
    when [select] holds none (property names being pairwise different). *)
Theorem first_heads_the_selected c :
  Instance.distinct c ->
  Instance.first predicate c
  = default VNull (head (Instance.values (Instance.select predicate c))).
Proof. intros Hd. rewrite select_values by done. apply search_head. Qed.

End Collections.


Lemma first_heads_the_selected_witness :
  Instance.first (fun v _ => truthy v)
    (Instance.Elements [VNumber 0; VString "x"; VNumber 2])
  = default VNull
      (head (Instance.values
               (Instance.select (fun v _ => truthy v)
                  (Instance.Elements [VNumber 0; VString "x"; VNumber 2])))).
Proof.
  apply (first_heads_the_selected (fun v _ => truthy v)
           (Instance.Elements [VNumber 0; VString "x"; VNumber 2])).
  exact I.
Defined.

(** ** The connection URL of a core *)

(** X29: a core that the constructor returned has a URL: reading it does
    not throw, since the constructor refuses to leave both the URI and the
    configuration falsy. *)
Theorem constructed_core_has_url args this :
  Core.construct args = Some this -> is_Some (Core.url this).
Proof.
  unfold Core.construct, Core.url. intros Hnew.
  destruct (negb (Core.given _) && negb _) eqn:Hboth; [done|].
  injection Hnew as <-. cbn [Core._url Core._config].
  destruct (Core.given (foldl Core.scan (None, None) args).1) eqn:Huri.
  - destruct ((foldl Core.scan (None, None) args).1) as [[|]|];
      simpl in Huri; try discriminate. by eexists.
  - simpl in Hboth. apply negb_false_iff, bool_decide_eq_true in Hboth as [c ->].
    by eexists.
Qed.

Lemma constructed_core_has_url_witness :
  is_Some (Core.url {| Core._url := Some "";
                       Core._config :=
                         Some {| Core.host := Some "db"; Core.port := Some 27017%N;
                                 Core.hosts := None; Core.database := Some "test";
                                 Core.username := None; Core.password := None |} |}).
Proof.
  apply (constructed_core_has_url
           [Core.Settings
              (Some {| Core.host := Some "db"; Core.port := Some 27017%N;
                       Core.hosts := None; Core.database := Some "test";
                       Core.username := None; Core.password := None |});
            Core.Text ""]).
  reflexivity.
Defined.

(** X30: without a user name the password of the configuration does not
    reach the URL: two cores that differ in the password only have the
    same URL. *)
Theorem password_needs_username uri c other :
  Core.given (Core.username c) = false ->
  Core.url {| Core._url := uri; Core._config := Some c |}
  = Core.url {| Core._url := uri;
                Core._config :=
                  Some {| Core.host := Core.host c; Core.port := Core.port c;
                          Core.hosts := Core.hosts c;
                          Core.database := Core.database c;
                          Core.username := Core.username c;
                          Core.password := other |} |}.
Proof.
  intros Hname. unfold Core.url, Core.credentials, Core.endpoints. simpl.
  by rewrite Hname.
Qed.

Lemma password_needs_username_witness :
  Core.url {| Core._url := None;
              Core._config :=
                Some {| Core.host := Some "db"; Core.port := None;
                        Core.hosts := None; Core.database := Some "test";
                        Core.username := None; Core.password := Some "secret" |} |}
  = Core.url {| Core._url := None;
                Core._config :=
                  Some {| Core.host := Some "db"; Core.port := None;
                          Core.hosts := None; Core.database := Some "test";
                          Core.username := None; Core.password := None |} |}.
Proof.
  apply (password_needs_username None
           {| Core.host := Some "db"; Core.port := None;
              Core.hosts := None; Core.database := Some "test";
              Core.username := None; Core.password := Some "secret" |} None).
  reflexivity.
Defined.
